(** * gzip [util.c]: buffers, checksum register, raw I/O and error handlers

    A shallow embedding of the I/O substrate of gzip ([util.c]) and the
    properties its specification states about it.  The C globals become the
    fields of a [state] record, the operating system (the input descriptor,
    the output descriptor, the diagnostic stream) becomes a [world] threaded
    through the same record, and every C function becomes a computation in a
    small state-and-exit monad [M]. *)

From Stdlib Require Import String Ascii.
From Stdlib Require Import Strings.Byte.
From Stdlib Require Import ZArith List Lia Bool.
Import ListNotations.

Local Open Scope string_scope.
Local Open Scope list_scope.
Local Open Scope Z_scope.

Set Implicit Arguments.

(** ** Machine integers *)

(** [unsigned] is 32 bits wide; [int] is its signed counterpart. *)
Definition UINT_MOD : Z := 2 ^ 32.
Definition INT_MAX : Z := 2 ^ 31 - 1.

(** Conversion to [unsigned]: reduction modulo [2^32]. *)
Definition u32 (x : Z) : Z := x mod UINT_MOD.

Definition byte_to_Z (b : byte) : Z := Z.of_N (Byte.to_N b).

(** ** The CRC-32 shift register *)

(** Modelled from the spec: [crc32_update] (declared in crc.h, which util.c
    includes) is not under src/.  The spec asks for "the accumulator's
    standard incremental update over bytes starting from current" of a
    32-bit cyclic redundancy code with initial value 0; this is the
    byte-at-a-time table-driven CRC-32 (reflected polynomial 0xedb88320)
    with the register inverted on entry and on exit. *)
Fixpoint crc32_table_bits (k : nat) (c : Z) : Z :=
  match k with
  | O => c
  | S k' =>
      crc32_table_bits k'
        (if Z.odd c then Z.lxor 0xedb88320 (Z.shiftr c 1) else Z.shiftr c 1)
  end.

Definition crc32_table (i : Z) : Z := crc32_table_bits 8 i.

Definition crc32_step (c : Z) (b : byte) : Z :=
  Z.lxor (crc32_table (Z.land (Z.lxor c (byte_to_Z b)) 0xff)) (Z.shiftr c 8).

Definition crc32_update_no_xor (c : Z) (buf : list byte) : Z :=
  fold_left crc32_step buf c.

(** The argument is converted to [uint32_t] on entry. *)
Definition crc32_update (c : Z) (buf : list byte) : Z :=
  Z.lxor (crc32_update_no_xor (Z.lxor (u32 c) 0xffffffff) buf) 0xffffffff.

(** ** Platform constants *)

(** Constants and library functions that util.c takes from headers that are
    not under src/: the input buffer size (gzip.h), the error numbers and
    descriptor flag it tests (errno.h, fcntl.h) and [strerror]. *)
Class Platform := {
  INBUFSIZ : Z;
  EPIPE : Z;
  EAGAIN : Z;
  O_NONBLOCK : Z;
  strerror : Z -> string
}.

(** Modelled from the spec: the three severities of gzip.h ([OK], [ERROR],
    [WARNING]) are not under src/; the spec distinguishes normal
    continuation, warning and fatal abort. *)
Inductive exitcode : Type := OK | ERROR | WARNING.

Definition exitcode_eqb (a b : exitcode) : bool :=
  match a, b with
  | OK, OK | ERROR, ERROR | WARNING, WARNING => true
  | _, _ => false
  end.

(** [EOF] of stdio.h. *)
Definition EOF : Z := -1.

(** ** Memory: the three static arrays *)

Inductive buffer : Type := Inbuf | Outbuf | Window.

(** A non-null pointer into one of the arrays: the array and a byte offset.
    A possibly null pointer is an [option ptr]. *)
Definition ptr : Type := (buffer * Z)%type.

Definition ptr_add (p : ptr) (n : Z) : ptr := (fst p, snd p + n).

Record memory : Type := mkMemory {
  inbuf : list byte;
  outbuf : list byte;
  window : list byte
}.

Definition array (m : memory) (b : buffer) : list byte :=
  match b with
  | Inbuf => inbuf m
  | Outbuf => outbuf m
  | Window => window m
  end.

Definition set_array (b : buffer) (l : list byte) (m : memory) : memory :=
  match b with
  | Inbuf => mkMemory l (outbuf m) (window m)
  | Outbuf => mkMemory (inbuf m) l (window m)
  | Window => mkMemory (inbuf m) (outbuf m) l
  end.

(** The [n] bytes at [p]. *)
Definition load (m : memory) (p : ptr) (n : Z) : list byte :=
  firstn (Z.to_nat n) (skipn (Z.to_nat (snd p)) (array m (fst p))).

(** Overwrite the bytes at [p] with [data]. *)
Definition splice (off : nat) (data l : list byte) : list byte :=
  firstn off l ++ data ++ skipn (off + length data) l.

Definition store (m : memory) (p : ptr) (data : list byte) : memory :=
  set_array (fst p) (splice (Z.to_nat (snd p)) data (array m (fst p))) m.

(** ** The operating system *)

(** What one call of read(2) finds: some bytes ready, or a failure with an
    error number.  An exhausted script is end of file. *)
Inductive read_event : Type :=
| RdData (bs : list byte)
| RdErr (e : Z).

(** The outcome of a system call that either succeeds with a value or fails
    with an error number.  For write(2) the value is the number of bytes the
    descriptor is ready to take. *)
Inductive sysres : Type :=
| SysOk (v : Z)
| SysErr (e : Z).

Record world : Type := mkWorld {
  w_in : list read_event;       (* what successive reads will find *)
  w_getfl : sysres;             (* what fcntl (fd, F_GETFL) answers *)
  w_setfl : sysres;             (* what fcntl (fd, F_SETFL, _) answers *)
  w_wr : nat -> sysres;         (* what the k-th write will do *)
  w_wcalls : nat;               (* number of writes issued so far *)
  w_out : list byte;            (* bytes delivered to the output so far *)
  w_err : list string           (* messages printed on stderr so far *)
}.

(** ** Program state *)

(** Configuration that util.c reads but never assigns. *)
Record config : Type := mkConfig {
  test : Z;
  quiet : Z;
  ifd : Z;
  ofd : Z;
  program_name : string;
  ifname : string;
  ofname : string
}.

Record state : Type := mkState {
  crc : Z;          (* static ulg crc *)
  insize : Z;       (* unsigned: valid bytes in inbuf *)
  inptr : Z;        (* unsigned: index of next byte to be processed *)
  outcnt : Z;       (* unsigned: bytes in output buffer *)
  bytes_in : Z;     (* off_t *)
  bytes_out : Z;    (* off_t *)
  errno : Z;
  mem : memory;
  cfg : config;
  os : world
}.

Definition set_crc (v : Z) (s : state) : state :=
  mkState v (insize s) (inptr s) (outcnt s) (bytes_in s) (bytes_out s)
          (errno s) (mem s) (cfg s) (os s).
Definition set_insize (v : Z) (s : state) : state :=
  mkState (crc s) v (inptr s) (outcnt s) (bytes_in s) (bytes_out s)
          (errno s) (mem s) (cfg s) (os s).
Definition set_inptr (v : Z) (s : state) : state :=
  mkState (crc s) (insize s) v (outcnt s) (bytes_in s) (bytes_out s)
          (errno s) (mem s) (cfg s) (os s).
Definition set_outcnt (v : Z) (s : state) : state :=
  mkState (crc s) (insize s) (inptr s) v (bytes_in s) (bytes_out s)
          (errno s) (mem s) (cfg s) (os s).
Definition set_bytes_in (v : Z) (s : state) : state :=
  mkState (crc s) (insize s) (inptr s) (outcnt s) v (bytes_out s)
          (errno s) (mem s) (cfg s) (os s).
Definition set_bytes_out (v : Z) (s : state) : state :=
  mkState (crc s) (insize s) (inptr s) (outcnt s) (bytes_in s) v
          (errno s) (mem s) (cfg s) (os s).
Definition set_errno (v : Z) (s : state) : state :=
  mkState (crc s) (insize s) (inptr s) (outcnt s) (bytes_in s) (bytes_out s)
          v (mem s) (cfg s) (os s).
Definition set_mem (v : memory) (s : state) : state :=
  mkState (crc s) (insize s) (inptr s) (outcnt s) (bytes_in s) (bytes_out s)
          (errno s) v (cfg s) (os s).
Definition set_cfg (v : config) (s : state) : state :=
  mkState (crc s) (insize s) (inptr s) (outcnt s) (bytes_in s) (bytes_out s)
          (errno s) (mem s) v (os s).
Definition set_os (v : world) (s : state) : state :=
  mkState (crc s) (insize s) (inptr s) (outcnt s) (bytes_in s) (bytes_out s)
          (errno s) (mem s) (cfg s) v.

Definition set_w_in (v : list read_event) (w : world) : world :=
  mkWorld v (w_getfl w) (w_setfl w) (w_wr w) (w_wcalls w) (w_out w) (w_err w).
Definition set_w_getfl (v : sysres) (w : world) : world :=
  mkWorld (w_in w) v (w_setfl w) (w_wr w) (w_wcalls w) (w_out w) (w_err w).
Definition set_w_written (k : nat) (o : list byte) (w : world) : world :=
  mkWorld (w_in w) (w_getfl w) (w_setfl w) (w_wr w) k o (w_err w).
Definition set_w_err (v : list string) (w : world) : world :=
  mkWorld (w_in w) (w_getfl w) (w_setfl w) (w_wr w) (w_wcalls w) (w_out w) v.

Definition set_test (v : Z) (c : config) : config :=
  mkConfig v (quiet c) (ifd c) (ofd c) (program_name c) (ifname c) (ofname c).

(** ** The monad of util.c computations *)

(** A computation returns normally with a value, terminates the process
    with an exit status, or is still running when the fuel given to a loop
    is used up. *)
Inductive result (A : Type) : Type :=
| Ret (a : A) (s : state)
| Exit (code : exitcode) (s : state)
| OutOfFuel.

Arguments Exit {A} code s.
Arguments OutOfFuel {A}.

Definition M (A : Type) : Type := state -> result A.

Definition ret {A} (a : A) : M A := fun s => Ret a s.

Definition bind {A B} (c : M A) (k : A -> M B) : M B :=
  fun s =>
    match c s with
    | Ret a s' => k a s'
    | Exit code s' => Exit code s'
    | OutOfFuel => OutOfFuel
    end.

Notation "x <- c1 ;; c2" := (bind c1 (fun x => c2))
  (at level 61, c1 at next level, right associativity).
Notation "c1 ;; c2" := (bind c1 (fun _ => c2))
  (at level 61, right associativity).

Definition get : M state := fun s => Ret s s.
Definition modify (f : state -> state) : M unit := fun s => Ret tt (f s).
Definition exit {A} (code : exitcode) : M A := fun s => Exit code s.
Definition out_of_fuel {A} : M A := fun _ => OutOfFuel.

(** The state once [msg] has appeared on stderr. *)
Definition printed (msg : string) (s : state) : state :=
  set_os (set_w_err (w_err (os s) ++ [msg]) (os s)) s.

(** fprintf (stderr, ...) of an already formatted message. *)
Definition eprint (msg : string) : M unit := modify (printed msg).

Definition nl : string := String (ascii_of_nat 10) EmptyString.

(** ** System calls *)

(** gzip reads one input descriptor and writes one output descriptor at a
    time, so the world holds one input and one output; the descriptor
    arguments are kept in the signatures and not consulted. *)

(** read (fd, buf, cnt): at end of the script return 0; on a failure event
    return -1 and set [errno]; otherwise move at most [cnt] of the ready
    bytes to [buf] and return their number.  Bytes of an event that were not
    taken stay ready for the next call. *)
Definition sys_read (fd : Z) (buf : ptr) (cnt : Z) : M Z :=
  fun s =>
    match w_in (os s) with
    | [] => Ret 0 s
    | RdErr e :: rest => Ret (-1) (set_errno e (set_os (set_w_in rest (os s)) s))
    | RdData bs :: rest =>
        let n := Z.min cnt (Z.of_nat (List.length bs)) in
        let rest' :=
          match skipn (Z.to_nat n) bs with
          | [] => rest
          | more => RdData more :: rest
          end in
        Ret n (set_mem (store (mem s) buf (firstn (Z.to_nat n) bs))
                 (set_os (set_w_in rest' (os s)) s))
    end.

(** write (fd, buf, cnt): the k-th call either fails, returning -1 and
    setting [errno], or delivers the first [min m cnt] bytes at [buf] and
    returns their number. *)
Definition sys_write (fd : Z) (buf : ptr) (cnt : Z) : M Z :=
  fun s =>
    let w := os s in
    match w_wr w (w_wcalls w) with
    | SysErr e =>
        Ret (-1) (set_errno e (set_os (set_w_written (S (w_wcalls w)) (w_out w) w) s))
    | SysOk m =>
        let n := Z.max 0 (Z.min m cnt) in
        Ret n (set_os (set_w_written (S (w_wcalls w))
                         (w_out w ++ load (mem s) buf n) w) s)
    end.

(** fcntl (fd, F_GETFL). *)
Definition fcntl_getfl (fd : Z) : M Z :=
  fun s =>
    match w_getfl (os s) with
    | SysOk flags => Ret flags s
    | SysErr e => Ret (-1) (set_errno e s)
    end.

(** fcntl (fd, F_SETFL, flags). *)
Definition fcntl_setfl (fd : Z) (flags : Z) : M Z :=
  fun s =>
    match w_setfl (os s) with
    | SysOk v => Ret v (set_os (set_w_getfl (SysOk flags) (os s)) s)
    | SysErr e => Ret (-1) (set_errno e s)
    end.

(** Modelled from the spec: [finish_up_gzip] and [abort_gzip] (gzip.c) are
    not under src/.  By the spec a fatal abort "terminates the process",
    and a warning-severity write failure still ends processing "at that
    severity level": both leave the program with the given exit status. *)
Definition finish_up_gzip (code : exitcode) : M unit := exit code.
Definition abort_gzip : M unit := finish_up_gzip ERROR.

(** ** util.c *)

Section Util.
Context {P : Platform}.

(** The format ["\n%s: %s: %s\n"]. *)
Definition diagnostic (prog name msg : string) : string :=
  (nl ++ prog ++ ": " ++ name ++ ": " ++ msg ++ nl)%string.

Definition gzip_error (m : string) : M unit :=
  s <- get ;;
  eprint (diagnostic (program_name (cfg s)) (ifname (cfg s)) m) ;;
  abort_gzip.

Definition xalloc_die : M unit :=
  s <- get ;;
  eprint (nl ++ program_name (cfg s) ++ ": memory_exhausted" ++ nl)%string ;;
  abort_gzip.

Definition read_error : M unit :=
  s <- get ;;
  eprint (diagnostic (program_name (cfg s)) (ifname (cfg s))
            (if errno s =? 0 then "unexpected end of file"
             else strerror (errno s))) ;;
  abort_gzip.

Definition write_error : M unit :=
  s <- get ;;
  let exitcode := if errno s =? EPIPE then WARNING else ERROR in
  (if negb (exitcode_eqb exitcode WARNING && negb (quiet (cfg s) =? 0))
   then eprint (diagnostic (program_name (cfg s)) (ofname (cfg s))
                  (strerror (errno s)))
   else ret tt) ;;
  finish_up_gzip exitcode.

(** [updcrc (s, n)]: [s] null resets the register, otherwise the [n] bytes
    at [s] are pumped through it. *)
Definition updcrc (s : option ptr) (n : Z) : M Z :=
  st <- get ;;
  modify (set_crc match s with
                  | None => 0
                  | Some p => crc32_update (crc st) (load (mem st) p n)
                  end) ;;
  st' <- get ;;
  ret (crc st').

Definition getcrc : M Z :=
  st <- get ;; ret (crc st).

Definition clear_bufs : M unit :=
  modify (set_outcnt 0) ;;
  modify (set_inptr 0) ;;
  modify (set_insize 0) ;;
  modify (set_bytes_out 0) ;;
  modify (set_bytes_in 0).

Definition read_buffer (fd : Z) (buf : ptr) (cnt : Z) : M Z :=
  let cnt := if INT_MAX <? cnt then INT_MAX else cnt in
  len <- sys_read fd buf cnt ;;
  st <- get ;;
  if (len <? 0) && (errno st =? EAGAIN) then
    flags <- fcntl_getfl fd ;;
    if 0 <=? flags then
      if Z.land flags O_NONBLOCK =? 0 then
        modify (set_errno EAGAIN) ;; ret len
      else
        r <- fcntl_setfl fd (Z.land flags (Z.lnot O_NONBLOCK)) ;;
        if negb (r =? -1) then sys_read fd buf cnt else ret len
    else ret len
  else ret len.

Definition write_buffer (fd : Z) (buf : ptr) (cnt : Z) : M Z :=
  let cnt := if INT_MAX <? cnt then INT_MAX else cnt in
  sys_write fd buf cnt.

(** The loop of [write_buf]; [n] is [unsigned], so a failed write is seen
    as [(unsigned)(-1)]. *)
Fixpoint write_loop (fuel : nat) (fd : Z) (buf : ptr) (cnt : Z) : M unit :=
  match fuel with
  | O => out_of_fuel
  | S fuel' =>
      r <- write_buffer fd buf cnt ;;
      let n := u32 r in
      if n =? cnt then ret tt
      else
        (if n =? u32 (-1) then write_error else ret tt) ;;
        write_loop fuel' fd (ptr_add buf n) (u32 (cnt - n))
  end.

Definition write_buf (fuel : nat) (fd : Z) (buf : ptr) (cnt : Z) : M unit :=
  st <- get ;;
  modify (set_bytes_out (bytes_out st + cnt)) ;;
  if negb (test (cfg st) =? 0) then ret tt
  else write_loop fuel fd buf cnt.

Definition flush_outbuf (fuel : nat) : M unit :=
  st <- get ;;
  if outcnt st =? 0 then ret tt
  else
    write_buf fuel (ofd (cfg st)) (Outbuf, 0) (outcnt st) ;;
    modify (set_outcnt 0).

Definition flush_window (fuel : nat) : M unit :=
  st <- get ;;
  if outcnt st =? 0 then ret tt
  else
    updcrc (Some (Window, 0)) (outcnt st) ;;
    write_buf fuel (ofd (cfg st)) (Window, 0) (outcnt st) ;;
    modify (set_outcnt 0).

(** The do-while loop of [fill_inbuf].  Every iteration that continues has
    put at least one more byte into the buffer, so [INBUFSIZ] iterations
    are enough (see [fill_loop_total]). *)
Fixpoint fill_loop (k : nat) : M unit :=
  match k with
  | O => out_of_fuel
  | S k' =>
      st <- get ;;
      len <- read_buffer (ifd (cfg st)) (Inbuf, insize st)
                         (u32 (INBUFSIZ - insize st)) ;;
      if len =? 0 then ret tt
      else if len =? -1 then read_error ;; ret tt
      else
        modify (set_insize (u32 (insize st + len))) ;;
        if u32 (insize st + len) <? INBUFSIZ then fill_loop k' else ret tt
  end.

Definition fill_inbuf (fuel : nat) (eof_ok : Z) : M Z :=
  modify (set_insize 0) ;;
  fill_loop (S (Z.to_nat INBUFSIZ)) ;;
  st <- get ;;
  let finish : M Z :=
    st <- get ;;
    modify (set_bytes_in (bytes_in st + insize st)) ;;
    modify (set_inptr 1) ;;
    st' <- get ;;
    ret (byte_to_Z (nth 0 (inbuf (mem st')) x00)) in
  if insize st =? 0 then
    if negb (eof_ok =? 0) then ret EOF
    else
      flush_window fuel ;;
      modify (set_errno 0) ;;
      read_error ;;
      finish
  else finish.

(** The loop of [copy]. *)
Fixpoint copy_loop (fuel : nat) (k : nat) (in_ out : Z) : M unit :=
  match k with
  | O => out_of_fuel
  | S k' =>
      st <- get ;;
      if inptr st <? insize st then
        write_buf fuel out (Inbuf, inptr st) (u32 (insize st - inptr st)) ;;
        got <- read_buffer in_ (Inbuf, 0) INBUFSIZ ;;
        (if got =? -1 then read_error else ret tt) ;;
        st' <- get ;;
        modify (set_bytes_in (bytes_in st' + got)) ;;
        modify (set_insize (u32 got)) ;;
        modify (set_inptr 0) ;;
        copy_loop fuel k' in_ out
      else ret tt
  end.

Definition copy (fuel : nat) (in_ out : Z) : M exitcode :=
  modify (set_errno 0) ;;
  copy_loop fuel fuel in_ out ;;
  ret OK.

End Util.

(** ** File names *)

(** A C string is the list of its bytes, without the terminating NUL; a
    pointer into it is an index. *)
Definition dot : byte := x2e.
Definition underline : byte := x5f.

(** strrchr (s, c): the index of the last occurrence of [c], if any. *)
Fixpoint strrchr (s : list byte) (c : byte) : option nat :=
  match s with
  | [] => None
  | b :: t =>
      match strrchr t c with
      | Some i => Some (S i)
      | None => if Byte.eqb b c then Some O else None
      end
  end.

(** [*p = b]. *)
Fixpoint poke (p : nat) (b : byte) (s : list byte) : list byte :=
  match s, p with
  | [], _ => []
  | _ :: t, O => b :: t
  | h :: t, S p' => h :: poke p' b t
  end.

(** The do-while loop of [make_simple_name]: [p] walks down to the start
    of the name, and every dot it meets becomes an underline.  The loop is
    entered with [p] past the start. *)
Fixpoint make_simple_loop (p : nat) (name : list byte) : list byte :=
  match p with
  | O => name
  | S q =>
      let name' :=
        if Byte.eqb (nth q name x00) dot then poke q underline name
        else name in
      match q with
      | O => name'
      | S _ => make_simple_loop q name'
      end
  end.

Definition make_simple_name (name : list byte) : list byte :=
  match strrchr name dot with
  | None => name
  | Some p => make_simple_loop (if Nat.eqb p 0 then 1%nat else p) name
  end.

(** What the loop makes of a character. *)
Definition under (b : byte) : byte :=
  if Byte.eqb b dot then underline else b.

(** The number of dots of a name. *)
Definition count_dots (s : list byte) : nat :=
  List.length (filter (Byte.eqb dot) s).

(** ** Options from the environment *)

(** SEPARATOR is [" \t"]. *)
Definition is_sep (b : byte) : bool := Byte.eqb b x20 || Byte.eqb b x09.
Definition is_nul (b : byte) : bool := Byte.eqb b x00.

(** The length of the longest prefix of [s] whose bytes satisfy [f]. *)
Fixpoint span (f : byte -> bool) (s : list byte) : nat :=
  match s with
  | b :: t => if f b then S (span f t) else O
  | [] => O
  end.

(** strspn (p, SEPARATOR), strcspn (p, SEPARATOR) and strlen (p) for the
    pointer at index [p] of the buffer [buf]. *)
Definition strspn_sep (buf : list byte) (p : nat) : nat :=
  span is_sep (skipn p buf).
Definition strcspn_sep (buf : list byte) (p : nat) : nat :=
  span (fun b => negb (is_sep b || is_nul b)) (skipn p buf).
Definition strlen (buf : list byte) (p : nat) : nat :=
  span (fun b => negb (is_nul b)) (skipn p buf).

(** The C string at index [p] of [buf]. *)
Definition cstr (buf : list byte) (p : nat) : list byte :=
  firstn (strlen buf p) (skipn p buf).

(** The first loop of [add_envopt]: it counts the words of the copied
    value and ends each of them with a NUL.  Every iteration but the last
    moves [p] forward, so the length of the buffer is fuel enough. *)
Fixpoint envopt_mark (fuel : nat) (buf : list byte) (p nargc : nat)
  : list byte * nat :=
  match fuel with
  | O => (buf, nargc)
  | S fuel' =>
      if is_nul (nth p buf x00) then (buf, nargc)
      else
        let p1 := (p + strspn_sep buf p)%nat in
        if is_nul (nth p1 buf x00) then (buf, nargc)
        else
          let p2 := (p1 + strcspn_sep buf p1)%nat in
          if negb (is_nul (nth p2 buf x00))
          then envopt_mark fuel' (poke p2 x00 buf) (S p2) (S nargc)
          else envopt_mark fuel' buf p2 (S nargc)
  end.

(** The second loop: the start of each of the [nargc] words. *)
Fixpoint envopt_collect (nargc : nat) (buf : list byte) (p : nat) : list nat :=
  match nargc with
  | O => []
  | S n =>
      let p1 := (p + strspn_sep buf p)%nat in
      p1 :: envopt_collect n buf (p1 + strlen buf p1 + 1)%nat
  end.

(** [add_envopt (&argc, &argv, name)], given what getenv (name) returns.
    The result is the returned storage (or NULL) and the argument count and
    vector after the call; the arguments taken from the storage are given
    as the strings they point to, and the vector is given without its
    terminating null pointer.  xstrdup and xcalloc are taken to succeed
    (when they fail they leave through [xalloc_die]). *)
Definition add_envopt (argc : Z) (argv : list (list byte))
    (env : option (list byte))
  : option (list byte) * Z * list (list byte) :=
  match env with
  | None => (None, argc, argv)
  | Some v =>
      let env_val := v ++ [x00] in
      let '(env_val', nargc) :=
        envopt_mark (List.length env_val) env_val 0 0 in
      if Nat.eqb nargc 0 then (None, argc, argv)
      else
        (Some env_val', Z.of_nat nargc + 1,
         hd [] argv :: map (cstr env_val') (envopt_collect nargc env_val' 0))
  end.

(** [Split s ws]: [ws] are the maximal runs of non-separators of [s], in
    order. *)
Inductive Split : list byte -> list (list byte) -> Prop :=
| Split_nil (s : list byte) :
    Forall (fun b => is_sep b = true) s -> Split s []
| Split_word (seps w rest : list byte) (ws : list (list byte)) :
    Forall (fun b => is_sep b = true) seps ->
    w <> [] ->
    Forall (fun b => is_sep b = false) w ->
    match rest with
    | [] => True
    | c :: _ => is_sep c = true
    end ->
    Split rest ws ->
    Split (seps ++ w ++ rest) (w :: ws).

(** The second loop run on the marked string [s'] finds the words [ws],
    wherever the string lies in the buffer. *)
Definition Collects (s' : list byte) (ws : list (list byte)) : Prop :=
  forall pre tail : list byte,
    map (cstr (pre ++ s' ++ x00 :: tail))
        (envopt_collect (List.length ws) (pre ++ s' ++ x00 :: tail)
           (List.length pre)) = ws.

(** ** Sessions: sequences of buffer operations *)

(** What the callers of the buffer layer do between two files: refill the
    input buffer, flush either output buffer, reset the buffers or the
    checksum, pump bytes through the checksum, and (the codec, which is not
    part of util.c) put bytes into an array and set the pending count, or
    advance the consume cursor. *)
Inductive op : Type :=
| OpFill (eof_ok : Z)
| OpFlushOutbuf
| OpFlushWindow
| OpClearBufs
| OpUpdcrc (s : option ptr) (n : Z)
| OpProduce (p : ptr) (data : list byte) (n : Z)
| OpConsume (n : Z).

Section Session.
Context {P : Platform}.

Definition step (fuel : nat) (o : op) : M unit :=
  match o with
  | OpFill eof_ok => fill_inbuf fuel eof_ok ;; ret tt
  | OpFlushOutbuf => flush_outbuf fuel
  | OpFlushWindow => flush_window fuel
  | OpClearBufs => clear_bufs
  | OpUpdcrc s n => updcrc s n ;; ret tt
  | OpProduce p data n =>
      modify (fun s => set_outcnt (u32 n) (set_mem (store (mem s) p data) s))
  | OpConsume n => modify (set_inptr (u32 n))
  end.

Fixpoint run (fuel : nat) (ops : list op) : M unit :=
  match ops with
  | [] => ret tt
  | o :: rest => step fuel o ;; run fuel rest
  end.

End Session.





(** Every write succeeds and takes at least one byte. *)
Definition writer_progress (w : nat -> sysres) : Prop :=
  forall k, exists m, w k = SysOk m /\ 1 <= m.


(** A run ends: it is not cut short by lack of fuel. *)
Definition terminates {A} (r : result A) : Prop :=
  match r with
  | OutOfFuel => False
  | _ => True
  end.

(** The state after a read has put the whole chunk [c] at the fill cursor
    of the input buffer. *)
Definition absorb (s : state) (c : list byte) : state :=
  set_insize (insize s + Z.of_nat (List.length c))
    (set_mem (store (mem s) (Inbuf, insize s) c)
       (set_os (set_w_in (tl (w_in (os s))) (os s)) s)).

Definition total_length (chunks : list (list byte)) : Z :=
  Z.of_nat (List.length (concat chunks)).

(** What a read leaves alone: the checksum, the cursors, the counters, the
    configuration and the output side of the world. *)
Definition io_frame (s s' : state) : Prop :=
  crc s' = crc s /\ insize s' = insize s /\ inptr s' = inptr s /\
  outcnt s' = outcnt s /\ bytes_in s' = bytes_in s /\
  bytes_out s' = bytes_out s /\ cfg s' = cfg s /\
  w_wr (os s') = w_wr (os s) /\ w_wcalls (os s') = w_wcalls (os s) /\
  w_out (os s') = w_out (os s).

Section Chunks.
Context {P : Platform}.

(** A chunk that one read of [copy] takes whole and that the write loop
    can deliver with the fuel at hand. *)
Definition chunk_ok (fuel : nat) (c : list byte) : Prop :=
  c <> [] /\ Z.of_nat (List.length c) <= INBUFSIZ /\
  Z.of_nat (List.length c) < Z.of_nat fuel.

End Chunks.

(** What a run with the test flag on leaves alone: the configuration, the
    behaviour of the output descriptor, and what has been written. *)
Definition quiet_frame (s t : state) : Prop :=
  cfg t = cfg s /\ w_wr (os t) = w_wr (os s) /\
  w_wcalls (os t) = w_wcalls (os s) /\ w_out (os t) = w_out (os s).



(** The pending output count is a valid [unsigned] that the fuel covers. *)
Definition pending_ok (fuel : nat) (s : state) : Prop :=
  0 <= outcnt s < UINT_MOD /\ outcnt s < Z.of_nat fuel.


Section FillSteps.
Context {P : Platform}.

(** One iteration of the read loop of [fill_inbuf] that goes on to the
    next: the read delivered some bytes and the buffer is not full yet. *)
Inductive fill_step : state -> state -> Prop :=
| fill_step_read (s s1 : state) (len : Z) :
    read_buffer (ifd (cfg s)) (Inbuf, insize s) (u32 (INBUFSIZ - insize s)) s =
    Ret len s1 ->
    len <> 0 -> len <> -1 ->
    u32 (insize s + len) < INBUFSIZ ->
    fill_step s (set_insize (u32 (insize s + len)) s1).

(** The loop states that can follow a given one, after any number of
    such iterations. *)
Inductive fill_reaches : state -> state -> Prop :=
| fill_reaches_here (s : state) : fill_reaches s s
| fill_reaches_step (s s' t : state) :
    fill_step s s' -> fill_reaches s' t -> fill_reaches s t.

End FillSteps.

Section CopySteps.
Context {P : Platform}.

(** One iteration of the loop of [copy] that goes on to the next test of
    the loop condition: the unread remainder has been written and the read
    has not failed. *)
Inductive copy_step (fuel : nat) (in_ out : Z) : state -> state -> Prop :=
| copy_step_chunk (s s1 s2 : state) (got : Z) :
    inptr s < insize s ->
    write_buf fuel out (Inbuf, inptr s) (u32 (insize s - inptr s)) s =
    Ret tt s1 ->
    read_buffer in_ (Inbuf, 0) INBUFSIZ s1 = Ret got s2 ->
    got <> -1 ->
    copy_step fuel in_ out s
      (set_inptr 0 (set_insize (u32 got) (set_bytes_in (bytes_in s2 + got) s2))).

(** The loop states that follow a given one after [n] such iterations. *)
Inductive copy_reaches (fuel : nat) (in_ out : Z) : nat -> state -> state -> Prop :=
| copy_reaches_here (s : state) : copy_reaches fuel in_ out 0 s s
| copy_reaches_step (n : nat) (s s' t : state) :
    copy_step fuel in_ out s s' -> copy_reaches fuel in_ out n s' t ->
    copy_reaches fuel in_ out (S n) s t.

End CopySteps.

(** ** Concrete platform and states used in examples *)

Definition errname (e : Z) : string :=
  if e =? 5 then "Input/output error"
  else if e =? 11 then "Resource temporarily unavailable"
  else if e =? 28 then "No space left on device"
  else if e =? 32 then "Broken pipe"
  else "Unknown error".

(** Linux values; the buffer size is the one of gzip.h. *)
Definition linux : Platform :=
  {| INBUFSIZ := 0x40000; EPIPE := 32; EAGAIN := 11; O_NONBLOCK := 0x800;
     strerror := errname |}.

Definition bytes (s : string) : list byte := list_byte_of_string s.

(** An output that takes one byte per call. *)
Definition one_byte_writer : nat -> sysres := fun _ => SysOk 1.

Definition world0 (input : list read_event) (wr : nat -> sysres) : world :=
  mkWorld input (SysOk 0) (SysOk 0) wr 0 [] [].

Definition config0 (test quiet : Z) : config :=
  mkConfig test quiet 0 1 "gzip" "in.gz" "out".

Definition state0 (m : memory) (c : config) (w : world) : state :=
  mkState 0 0 0 0 0 0 0 m c w.

Definition mem0 : memory := mkMemory [] [] [].

(** Whether a message contains a given text. *)
Definition mentions (text msg : string) : bool :=
  match index 0 text msg with
  | Some _ => true
  | None => false
  end.

(** The window holds "banana"; test mode is off. *)
Definition st_banana : state :=
  state0 (mkMemory [] [] (bytes "banana")) (config0 0 0)
         (world0 [] one_byte_writer).

(** The output buffer holds "abc"; the output takes one byte per call. *)
Definition st_abc : state :=
  state0 (mkMemory [] (bytes "abc") []) (config0 0 0)
         (world0 [] one_byte_writer).

(** The first read fails with EIO. *)
Definition st_rderr : state :=
  state0 mem0 (config0 0 0) (world0 [RdErr 5] one_byte_writer).

(** The input delivers "ab" and then fails with EIO. *)
Definition st_ab_rderr : state :=
  state0 mem0 (config0 0 0)
         (world0 [RdData (bytes "ab"); RdErr 5] one_byte_writer).

(** The input delivers "hi" and then ends. *)
Definition st_hi : state :=
  state0 mem0 (config0 0 0) (world0 [RdData (bytes "hi")] one_byte_writer).

(** One unread byte "a" in the input buffer; the input is at end of file. *)
Definition st_copy_eof : state :=
  mkState 0 1 0 0 1 0 0 (mkMemory (bytes "a") [] []) (config0 0 0)
          (world0 [] one_byte_writer).

(** Two unread bytes "ab" in the input buffer; the input delivers "cd" and
    then ends. *)
Definition st_copy : state :=
  mkState 0 2 0 0 2 0 0 (mkMemory (bytes "ab") [] []) (config0 0 0)
          (world0 [RdData (bytes "cd")] one_byte_writer).

(** A write has just failed with [e]. *)
Definition st_werr (e quiet : Z) : state :=
  set_errno e (state0 mem0 (config0 0 quiet) (world0 [] one_byte_writer)).

(** A test-mode session that decompresses "banana" in two window flushes
    and then refills the input buffer. *)
Definition st_test : state :=
  state0 mem0 (config0 1 0) (world0 [RdData (bytes "xy")] one_byte_writer).

Definition banana_session : list op :=
  [OpProduce (Window, 0) (bytes "ban") 3; OpFlushWindow;
   OpProduce (Window, 0) (bytes "ana") 3; OpFlushWindow;
   OpFill 1].

(** What a write leaves alone: the checksum, the cursors, the counters, the
    arrays, the configuration and the input. *)
Definition write_frame (s s' : state) : Prop :=
  crc s' = crc s /\ insize s' = insize s /\ inptr s' = inptr s /\
  outcnt s' = outcnt s /\ bytes_in s' = bytes_in s /\
  bytes_out s' = bytes_out s /\ mem s' = mem s /\ cfg s' = cfg s /\
  w_in (os s') = w_in (os s).

(** The state in which the pending write has just failed with [e]. *)
Definition write_failed (e : Z) (s : state) : state :=
  set_errno e
    (set_os (set_w_written (S (w_wcalls (os s))) (w_out (os s)) (os s)) s).

(** A platform with a four-byte input buffer. *)
Definition tiny : Platform :=
  {| INBUFSIZ := 4; EPIPE := 32; EAGAIN := 11; O_NONBLOCK := 0x800;
     strerror := errname |}.

(** An output on which every write fails with [e], and one that takes
    no byte. *)
Definition failing_writer (e : Z) : nat -> sysres := fun _ => SysErr e.
Definition stalled_writer : nat -> sysres := fun _ => SysOk 0.

(** "abc" in the output buffer; every write fails with ENOSPC. *)
Definition st_wfail : state :=
  state0 (mkMemory [] (bytes "abc") []) (config0 0 0)
         (world0 [] (failing_writer 28)).

(** "abc" in the output buffer; the output takes nothing. *)
Definition st_stalled : state :=
  state0 (mkMemory [] (bytes "abc") []) (config0 0 0)
         (world0 [] stalled_writer).

(** Three bytes pending in the window, [errno] left over from an earlier
    call, the input at end of file. *)
Definition st_window : state :=
  set_errno 5
    (set_outcnt 3
       (state0 (mkMemory [] [] (bytes "ban")) (config0 0 0)
               (world0 [] one_byte_writer))).

(** The same with every write failing. *)
Definition st_window_wfail : state :=
  set_outcnt 3
    (state0 (mkMemory [] [] (bytes "ban")) (config0 0 0)
            (world0 [] (failing_writer 28))).

(** The first read fails with EAGAIN, then "ok" is ready; the descriptor
    has the given status flags. *)
Definition st_eagain (flags : Z) : state :=
  state0 mem0 (config0 0 0)
         (mkWorld [RdErr 11; RdData (bytes "ok")] (SysOk flags) (SysOk 0)
                  one_byte_writer 0 [] []).

(** The input delivers "ab", then "c", then ends. *)
Definition st_short_reads : state :=
  state0 mem0 (config0 0 0)
         (world0 [RdData (bytes "ab"); RdData (bytes "c")] one_byte_writer).

(** Six bytes are ready at once. *)
Definition st_six : state :=
  state0 mem0 (config0 0 0) (world0 [RdData (bytes "abcdef")] one_byte_writer).


(** One unread byte "a" in the input buffer; the next read fails. *)
Definition st_copy_rderr : state :=
  mkState 0 1 0 0 1 0 0 (mkMemory (bytes "a") [] []) (config0 0 0)
          (world0 [RdErr 5] one_byte_writer).

(** * Properties *)

(** ** Arithmetic of 32-bit registers *)

Lemma u32_small (x : Z) : 0 <= x < UINT_MOD -> u32 x = x.
Proof. intros H. unfold u32. now apply Z.mod_small. Qed.

Lemma u32_range (x : Z) : 0 <= u32 x < UINT_MOD.
Proof. unfold u32, UINT_MOD. apply Z.mod_pos_bound. lia. Qed.

Lemma lxor_range (a b : Z) :
  0 <= a < UINT_MOD -> 0 <= b < UINT_MOD -> 0 <= Z.lxor a b < UINT_MOD.
Proof.
  intros Ha Hb. unfold UINT_MOD in *.
  assert (Hnn : 0 <= Z.lxor a b) by (apply Z.lxor_nonneg; lia).
  split; [assumption|].
  destruct (Z.eq_dec (Z.lxor a b) 0) as [E|E]; [rewrite E; lia|].
  apply Z.log2_lt_pow2; [lia|].
  eapply Z.le_lt_trans; [apply Z.log2_lxor; lia|].
  apply Z.max_lub_lt.
  - destruct (Z.eq_dec a 0) as [->|]; [simpl; lia|].
    apply Z.log2_lt_pow2; lia.
  - destruct (Z.eq_dec b 0) as [->|]; [simpl; lia|].
    apply Z.log2_lt_pow2; lia.
Qed.

Lemma shiftr_range (a n : Z) :
  0 <= n -> 0 <= a < UINT_MOD -> 0 <= Z.shiftr a n < UINT_MOD.
Proof.
  intros Hn Ha. rewrite Z.shiftr_div_pow2 by assumption.
  assert (0 < 2 ^ n) by (apply Z.pow_pos_nonneg; lia).
  split.
  - apply Z.div_pos; lia.
  - apply Z.le_lt_trans with a; [|lia].
    apply Z.div_le_upper_bound; nia.
Qed.

Lemma crc32_table_bits_range (k : nat) (c : Z) :
  0 <= c < UINT_MOD -> 0 <= crc32_table_bits k c < UINT_MOD.
Proof.
  revert c. induction k as [|k IH]; intros c Hc; cbn [crc32_table_bits];
    [assumption|].
  apply IH. destruct (Z.odd c).
  - apply lxor_range; [unfold UINT_MOD; lia | apply shiftr_range; lia].
  - apply shiftr_range; lia.
Qed.

Lemma crc32_step_range (c : Z) (b : byte) :
  0 <= c < UINT_MOD -> 0 <= crc32_step c b < UINT_MOD.
Proof.
  intros Hc. unfold crc32_step. apply lxor_range.
  - apply crc32_table_bits_range.
    assert (H : 0 <= Z.land (Z.lxor c (byte_to_Z b)) 0xff < 256).
    { change 0xff with (Z.ones 8). rewrite Z.land_ones by lia.
      apply Z.mod_pos_bound. lia. }
    unfold UINT_MOD. lia.
  - apply shiftr_range; lia.
Qed.

Lemma crc32_update_no_xor_range (buf : list byte) (c : Z) :
  0 <= c < UINT_MOD -> 0 <= crc32_update_no_xor c buf < UINT_MOD.
Proof.
  unfold crc32_update_no_xor. revert c.
  induction buf as [|b buf IH]; intros c Hc; cbn [fold_left]; [assumption|].
  apply IH. now apply crc32_step_range.
Qed.

Lemma crc32_update_range (c : Z) (buf : list byte) :
  0 <= crc32_update c buf < UINT_MOD.
Proof.
  unfold crc32_update. apply lxor_range; [|unfold UINT_MOD; lia].
  apply crc32_update_no_xor_range.
  apply lxor_range; [apply u32_range | unfold UINT_MOD; lia].
Qed.

Lemma lxor_cancel (x m : Z) : Z.lxor (Z.lxor x m) m = x.
Proof. now rewrite Z.lxor_assoc, Z.lxor_nilpotent, Z.lxor_0_r. Qed.

(** Pumping nothing through the register leaves a 32-bit value as it is. *)
Lemma crc32_update_nil (c : Z) : crc32_update c [] = u32 c.
Proof.
  unfold crc32_update, crc32_update_no_xor. cbn [fold_left].
  apply lxor_cancel.
Qed.

(** Pumping [a] and then [b] is pumping [a ++ b]. *)
Lemma crc32_update_app (c : Z) (a b : list byte) :
  crc32_update (crc32_update c a) b = crc32_update c (a ++ b).
Proof.
  unfold crc32_update at 1 3.
  rewrite (u32_small (crc32_update_range c a)).
  unfold crc32_update. rewrite lxor_cancel.
  unfold crc32_update_no_xor. now rewrite fold_left_app.
Qed.

(** The table generator agrees with the first and last entries of the
    standard table, and the register with the standard check value. *)
Example crc32_table_entries :
  crc32_table 0 = 0 /\ crc32_table 1 = 0x77073096 /\
  crc32_table 255 = 0x2d02ef8d.
Proof. repeat split; reflexivity. Qed.

Example crc32_check_value : crc32_update 0 (bytes "123456789") = 0xcbf43926.
Proof. vm_compute. reflexivity. Qed.

(** ** The checksum register *)

Lemma set_crc_idem (v w : Z) (s : state) : set_crc v (set_crc w s) = set_crc v s.
Proof. reflexivity. Qed.

Lemma set_crc_same (s : state) : set_crc (crc s) s = s.
Proof. now destruct s. Qed.

Lemma updcrc_eq (s : option ptr) (n : Z) (st : state) :
  updcrc s n st =
  let c := match s with
           | None => 0
           | Some p => crc32_update (crc st) (load (mem st) p n)
           end in
  Ret c (set_crc c st).
Proof. reflexivity. Qed.

(** The register always holds a 32-bit value after [updcrc], as it does
    initially (it starts at 0). *)
Lemma updcrc_range (s : option ptr) (n : Z) (st : state) :
  exists c st', updcrc s n st = Ret c st' /\ crc st' = c /\ 0 <= c < UINT_MOD.
Proof.
  rewrite updcrc_eq. cbv zeta. do 2 eexists. split; [reflexivity|].
  split; [reflexivity|].
  destruct s; [apply crc32_update_range | unfold UINT_MOD; lia].
Qed.

Lemma load_split (m : memory) (p : ptr) (n1 n2 : Z) :
  0 <= snd p -> 0 <= n1 -> 0 <= n2 ->
  load m p (n1 + n2) = load m p n1 ++ load m (ptr_add p n1) n2.
Proof.
  intros Hp H1 H2. unfold load, ptr_add. cbn [fst snd].
  rewrite !Z2Nat.inj_add by assumption.
  set (l := array m (fst p)).
  rewrite (Nat.add_comm (Z.to_nat (snd p))), <- skipn_skipn.
  set (l' := skipn (Z.to_nat (snd p)) l).
  rewrite <- (firstn_skipn (Z.to_nat n1) l') at 1.
  rewrite firstn_app.
  destruct (Nat.le_gt_cases (Z.to_nat n1) (List.length l')) as [Hle|Hgt].
  - rewrite firstn_length_le by assumption.
    rewrite (firstn_all2 (n := Z.to_nat n1 + Z.to_nat n2)).
    + f_equal. f_equal. lia.
    + rewrite firstn_length_le by assumption. lia.
  - rewrite (skipn_all2 (n := Z.to_nat n1)) by lia.
    rewrite !firstn_nil, !app_nil_r.
    rewrite !firstn_all2; rewrite ?length_firstn; try lia. reflexivity.
Qed.

(** C1: streaming equivalence of the checksum.  Whatever the register
    holds, pumping a span that holds [a] and then a span that holds [b]
    through [updcrc] leaves the same register value, and returns the same
    value, as pumping one span that holds [a ++ b]. *)
Theorem updcrc_streaming (st : state) (a b : list byte)
    (pa pb pab : ptr) (na nb nab : Z) :
  load (mem st) pa na = a ->
  load (mem st) pb nb = b ->
  load (mem st) pab nab = a ++ b ->
  (updcrc (Some pa) na ;; updcrc (Some pb) nb) st = updcrc (Some pab) nab st.
Proof.
  intros Ha Hb Hab. unfold bind. rewrite !updcrc_eq. cbv beta iota zeta.
  rewrite updcrc_eq. cbv zeta. cbn [crc mem set_crc].
  rewrite Ha, Hb, Hab, crc32_update_app. reflexivity.
Qed.

(** Splitting one span at any point is a special case. *)
Corollary updcrc_split (st : state) (p : ptr) (n1 n2 : Z) :
  0 <= snd p -> 0 <= n1 -> 0 <= n2 ->
  (updcrc (Some p) n1 ;; updcrc (Some (ptr_add p n1)) n2) st =
  updcrc (Some p) (n1 + n2) st.
Proof.
  intros Hp H1 H2. unfold bind. rewrite !updcrc_eq. cbv beta iota zeta.
  rewrite updcrc_eq. cbv zeta. cbn [crc mem set_crc].
  rewrite load_split, crc32_update_app by assumption. reflexivity.
Qed.

(** C9: the reset sentinel is the null pointer, not the zero length.
    [updcrc (NULL, n)] sets the register to 0 for every [n] and whatever the
    register held; [updcrc (s, 0)] with [s] non-null returns the register
    and leaves the state as it is. *)
Theorem updcrc_null_resets_zero_length_keeps (st : state) (n : Z) (p : ptr) :
  0 <= crc st < UINT_MOD ->
  updcrc None n st = Ret 0 (set_crc 0 st) /\
  updcrc (Some p) 0 st = Ret (crc st) st.
Proof.
  intros Hc. split; [reflexivity|].
  rewrite updcrc_eq. cbv zeta.
  assert (E : load (mem st) p 0 = []) by reflexivity.
  rewrite E, crc32_update_nil, (u32_small Hc), set_crc_same. reflexivity.
Qed.

(** ** Buffer reset *)

(** C10: [clear_bufs] zeroes the pending output count, the input fill and
    consume cursors and both byte counters, and changes nothing else; in
    particular the checksum register keeps its value. *)
Theorem clear_bufs_frame (st : state) :
  exists st',
    clear_bufs st = Ret tt st' /\
    outcnt st' = 0 /\ insize st' = 0 /\ inptr st' = 0 /\
    bytes_in st' = 0 /\ bytes_out st' = 0 /\
    crc st' = crc st /\
    errno st' = errno st /\ mem st' = mem st /\ cfg st' = cfg st /\
    os st' = os st.
Proof.
  eexists. split; [reflexivity|]. cbn. repeat split; reflexivity.
Qed.

(** Resetting the register takes the separate call with the sentinel. *)
Lemma clear_bufs_then_reset (st : state) :
  exists st', (clear_bufs ;; updcrc None 0) st = Ret 0 st' /\ crc st' = 0.
Proof. eexists. split; reflexivity. Qed.

(** ** Error handlers *)

Section ErrorProps.
Context {P : Platform}.

Lemma read_error_eq (st : state) :
  read_error st =
  Exit ERROR
    (printed (diagnostic (program_name (cfg st)) (ifname (cfg st))
                (if errno st =? 0 then "unexpected end of file"
                 else strerror (errno st))) st).
Proof. reflexivity. Qed.

(** C7: classification of write failures.  When the error is the "reader
    went away" condition ([EPIPE]) the operation ends with warning
    severity, and the diagnostic is printed unless quiet mode is on; every
    other write failure ends with error severity and the diagnostic is
    printed whatever the quiet flag says. *)
Theorem write_error_classification (st : state) :
  let msg := diagnostic (program_name (cfg st)) (ofname (cfg st))
               (strerror (errno st)) in
  (errno st = EPIPE ->
   write_error st =
   Exit WARNING (if quiet (cfg st) =? 0 then printed msg st else st)) /\
  (errno st <> EPIPE -> write_error st = Exit ERROR (printed msg st)).
Proof.
  intros msg. unfold write_error, bind, get, finish_up_gzip, exit. split.
  - intros E. apply Z.eqb_eq in E. rewrite E. cbn [exitcode_eqb andb].
    destruct (quiet (cfg st) =? 0); reflexivity.
  - intros E. apply Z.eqb_neq in E. rewrite E. reflexivity.
Qed.

(** C8 (as amended): an allocation failure prints the fixed line
    "memory_exhausted" (with an underscore) after the program name and ends
    the process with error severity.  The line bypasses the normal
    diagnostic format: it depends on the program name alone, not on the
    display name, [errno] or any other part of the state. *)
Theorem xalloc_die_fatal_fixed_message (st st' : state) :
  program_name (cfg st') = program_name (cfg st) ->
  exists msg,
    msg = (nl ++ program_name (cfg st) ++ ": memory_exhausted" ++ nl)%string /\
    xalloc_die st = Exit ERROR (printed msg st) /\
    xalloc_die st' = Exit ERROR (printed msg st').
Proof.
  intros Hname. eexists. split; [reflexivity|]. split; [reflexivity|].
  unfold xalloc_die, bind, get, eprint, modify, abort_gzip, finish_up_gzip,
    exit.
  rewrite Hname. reflexivity.
Qed.

End ErrorProps.

(** ** Writing *)

Section WriteProps.
Context {P : Platform}.

Lemma write_buffer_ok (fd : Z) (buf : ptr) (cnt m : Z) (s : state) :
  w_wr (os s) (w_wcalls (os s)) = SysOk m -> 1 <= m -> 0 <= cnt ->
  exists n,
    write_buffer fd buf cnt s =
    Ret n (set_os (set_w_written (S (w_wcalls (os s)))
                     (w_out (os s) ++ load (mem s) buf n) (os s)) s) /\
    0 <= n <= cnt /\ n <= INT_MAX /\ (0 < cnt -> 1 <= n).
Proof.
  intros Hw Hm Hc. unfold write_buffer, sys_write. rewrite Hw.
  eexists. split; [reflexivity|].
  unfold INT_MAX. destruct (_ <? cnt) eqn:E; lia.
Qed.

Lemma write_loop_delivers (fuel : nat) :
  forall (fd : Z) (buf : ptr) (cnt : Z) (s : state),
    writer_progress (w_wr (os s)) ->
    0 <= snd buf -> 0 <= cnt < UINT_MOD -> cnt < Z.of_nat fuel ->
    exists k,
      write_loop fuel fd buf cnt s =
      Ret tt (set_os (set_w_written k (w_out (os s) ++ load (mem s) buf cnt)
                        (os s)) s) /\
      (w_wcalls (os s) < k <= w_wcalls (os s) + Z.to_nat (Z.max 1 cnt))%nat.
Proof.
  induction fuel as [|fuel IH]; intros fd buf cnt s Hw Hb Hc Hf; [lia|].
  destruct (Hw (w_wcalls (os s))) as (m & Hm & Hm1).
  destruct (write_buffer_ok fd buf (cnt := cnt) s Hm Hm1) as (n & E & Hn & Hmax & Hpos);
    [lia|].
  cbn [write_loop]. unfold bind at 1. rewrite E.
  assert (Hu : u32 n = n) by (apply u32_small; lia).
  rewrite Hu. destruct (n =? cnt) eqn:En.
  - apply Z.eqb_eq in En. subst n. exists (S (w_wcalls (os s))).
    split; [reflexivity | lia].
  - apply Z.eqb_neq in En.
    assert (Hneg : (n =? u32 (-1)) = false).
    { apply Z.eqb_neq. unfold u32, UINT_MOD, INT_MAX in *.
      change ((-1) mod 2 ^ 32) with (2 ^ 32 - 1). lia. }
    rewrite Hneg. unfold bind at 1. unfold ret at 1.
    set (s1 := set_os _ s).
    assert (Hu2 : u32 (cnt - n) = cnt - n) by (apply u32_small; lia).
    rewrite Hu2.
    destruct (IH fd (ptr_add buf n) (cnt - n) s1) as (k & Ek & Hk);
      [exact Hw | cbn; lia | lia | lia |].
    exists k. split.
    + rewrite Ek. subst s1. cbn [mem os set_os set_w_written w_out w_in w_getfl
        w_setfl w_wr w_err w_wcalls].
      rewrite <- app_assoc, <- load_split by lia.
      replace (n + (cnt - n)) with cnt by lia. reflexivity.
    + subst s1. cbn [os set_os set_w_written w_wcalls] in Hk. lia.
Qed.

Lemma write_buffer_bytes_out (fd : Z) (buf : ptr) (cnt : Z) (s : state) :
  exists n s', write_buffer fd buf cnt s = Ret n s' /\ bytes_out s' = bytes_out s.
Proof.
  unfold write_buffer, sys_write. cbv zeta.
  destruct (w_wr (os s) (w_wcalls (os s))); do 2 eexists; split; reflexivity.
Qed.

(** The loop never touches the output counter, however it ends. *)
Lemma write_loop_bytes_out (fuel : nat) :
  forall (fd : Z) (buf : ptr) (cnt : Z) (s : state),
    match write_loop fuel fd buf cnt s with
    | Ret _ s' | Exit _ s' => bytes_out s' = bytes_out s
    | OutOfFuel => True
    end.
Proof.
  induction fuel as [|fuel IH]; intros fd buf cnt s; [exact I|].
  cbn [write_loop]. unfold bind at 1.
  destruct (write_buffer_bytes_out fd buf cnt s) as (r & s1 & E & Hb).
  rewrite E. destruct (u32 r =? cnt); [exact Hb|].
  unfold bind at 1.
  destruct (u32 r =? u32 (-1)).
  - unfold write_error, bind, get, finish_up_gzip, exit.
    destruct (negb _); exact Hb.
  - unfold ret at 1.
    specialize (IH fd (ptr_add buf (u32 r)) (u32 (cnt - u32 r)) s1).
    destruct (write_loop fuel fd _ _ s1); try exact I; congruence.
Qed.

Lemma write_buf_eq (fuel : nat) (fd : Z) (buf : ptr) (cnt : Z) (st : state) :
  write_buf fuel fd buf cnt st =
  if negb (test (cfg st) =? 0)
  then Ret tt (set_bytes_out (bytes_out st + cnt) st)
  else write_loop fuel fd buf cnt (set_bytes_out (bytes_out st + cnt) st).
Proof.
  unfold write_buf, bind, get, modify.
  destruct (negb (test (cfg st) =? 0)); reflexivity.
Qed.

End WriteProps.

(** ** Reading *)

Section ReadProps.
Context {P : Platform}.

Lemma sys_read_data (fd : Z) (buf : ptr) (cnt : Z) (c : list byte)
    (r : list read_event) (s : state) :
  w_in (os s) = RdData c :: r ->
  Z.of_nat (List.length c) <= cnt ->
  sys_read fd buf cnt s =
  Ret (Z.of_nat (List.length c))
      (set_mem (store (mem s) buf c) (set_os (set_w_in r (os s)) s)).
Proof.
  intros Hin Hc. unfold sys_read. rewrite Hin. cbv zeta.
  rewrite Z.min_r by assumption. rewrite Nat2Z.id.
  rewrite firstn_all, skipn_all. reflexivity.
Qed.

Lemma read_buffer_data (fd : Z) (buf : ptr) (cnt : Z) (c : list byte)
    (r : list read_event) (s : state) :
  w_in (os s) = RdData c :: r ->
  Z.of_nat (List.length c) <= cnt ->
  Z.of_nat (List.length c) <= INT_MAX ->
  read_buffer fd buf cnt s =
  Ret (Z.of_nat (List.length c))
      (set_mem (store (mem s) buf c) (set_os (set_w_in r (os s)) s)).
Proof.
  intros Hin Hc Hmax. unfold read_buffer. cbv zeta. unfold bind at 1.
  rewrite (sys_read_data fd buf (c := c) (r := r));
    [| assumption | destruct (INT_MAX <? cnt); assumption].
  unfold bind, get.
  replace (Z.of_nat (List.length c) <? 0) with false
    by (symmetry; apply Z.ltb_ge; lia).
  reflexivity.
Qed.

Lemma read_buffer_eof (fd : Z) (buf : ptr) (cnt : Z) (s : state) :
  w_in (os s) = [] -> read_buffer fd buf cnt s = Ret 0 s.
Proof.
  intros Hin. unfold read_buffer. cbv zeta. unfold bind at 1.
  unfold sys_read at 1. rewrite Hin. reflexivity.
Qed.

Lemma io_frame_refl (s : state) : io_frame s s.
Proof. repeat split. Qed.

Lemma io_frame_trans (a b c : state) :
  io_frame a b -> io_frame b c -> io_frame a c.
Proof. unfold io_frame. intuition congruence. Qed.

Lemma sys_read_spec (fd : Z) (buf : ptr) (cnt : Z) (s : state) :
  0 <= cnt ->
  exists len s',
    sys_read fd buf cnt s = Ret len s' /\ -1 <= len <= cnt /\ io_frame s s'.
Proof.
  intros Hc. unfold sys_read.
  destruct (w_in (os s)) as [|[bs|e] rest]; cbv zeta.
  - exists 0, s. repeat split; lia.
  - do 2 eexists. split; [reflexivity|]. split; [lia|]. repeat split.
  - do 2 eexists. split; [reflexivity|]. split; [lia|]. repeat split.
Qed.

Lemma fcntl_getfl_spec (fd : Z) (s : state) :
  exists r s', fcntl_getfl fd s = Ret r s' /\ io_frame s s'.
Proof.
  unfold fcntl_getfl. destruct (w_getfl (os s));
    do 2 eexists; (split; [reflexivity | repeat split]).
Qed.

Lemma fcntl_setfl_spec (fd flags : Z) (s : state) :
  exists r s', fcntl_setfl fd flags s = Ret r s' /\ io_frame s s'.
Proof.
  unfold fcntl_setfl. destruct (w_setfl (os s));
    do 2 eexists; (split; [reflexivity | repeat split]).
Qed.

(** [read_buffer] always returns, with -1 or a count within the request. *)
Lemma read_buffer_spec (fd : Z) (buf : ptr) (cnt : Z) (s : state) :
  0 <= cnt ->
  exists len s',
    read_buffer fd buf cnt s = Ret len s' /\ -1 <= len <= cnt /\ io_frame s s'.
Proof.
  intros Hc. unfold read_buffer. cbv zeta.
  set (cnt' := if INT_MAX <? cnt then INT_MAX else cnt).
  assert (Hc' : 0 <= cnt' <= cnt).
  { subst cnt'. unfold INT_MAX. destruct (_ <? cnt) eqn:E; lia. }
  destruct (sys_read_spec fd buf s (cnt := cnt')) as (len & s1 & E1 & Hl1 & F1);
    [lia|].
  unfold bind at 1. rewrite E1. unfold bind at 1, get at 1.
  destruct ((len <? 0) && (errno s1 =? EAGAIN)).
  - destruct (fcntl_getfl_spec fd s1) as (fl & s2 & E2 & F2).
    unfold bind at 1. rewrite E2.
    destruct (0 <=? fl).
    + destruct (Z.land fl O_NONBLOCK =? 0).
      * eexists len, _. split; [reflexivity|]. split; [lia|].
        eapply io_frame_trans; [exact F1|].
        eapply io_frame_trans; [exact F2|]. repeat split.
      * destruct (fcntl_setfl_spec fd (Z.land fl (Z.lnot O_NONBLOCK)) s2)
          as (r & s3 & E3 & F3).
        unfold bind at 1. rewrite E3.
        destruct (negb (r =? -1)).
        -- destruct (sys_read_spec fd buf s3 (cnt := cnt'))
             as (len' & s4 & E4 & Hl4 & F4); [lia|].
           exists len', s4. split; [exact E4|]. split; [lia|].
           eauto using io_frame_trans.
        -- exists len, s3. split; [reflexivity|]. split; [lia|].
           eauto using io_frame_trans.
    + exists len, s2. split; [reflexivity|]. split; [lia|].
      eauto using io_frame_trans.
  - exists len, s1. split; [reflexivity|]. split; [lia|]. exact F1.
Qed.

Lemma fill_loop_step (k : nat) (st : state) :
  fill_loop (S k) st =
  match read_buffer (ifd (cfg st)) (Inbuf, insize st)
          (u32 (INBUFSIZ - insize st)) st with
  | Ret len s1 =>
      if len =? 0 then Ret tt s1
      else if len =? -1 then
        match read_error s1 with
        | Ret _ s2 => Ret tt s2
        | Exit c s2 => Exit c s2
        | OutOfFuel => OutOfFuel
        end
      else if u32 (insize st + len) <? INBUFSIZ
           then fill_loop k (set_insize (u32 (insize st + len)) s1)
           else Ret tt (set_insize (u32 (insize st + len)) s1)
  | Exit c s1 => Exit c s1
  | OutOfFuel => OutOfFuel
  end.
Proof.
  cbn [fill_loop]. unfold bind at 1, get at 1. unfold bind at 1.
  destruct (read_buffer _ _ _ st) as [len s1| |]; try reflexivity.
  destruct (len =? 0); [reflexivity|].
  destruct (len =? -1); [reflexivity|].
  unfold bind, modify.
  destruct (u32 (insize st + len) <? INBUFSIZ); reflexivity.
Qed.

(** The read loop of [fill_inbuf] always ends: [INBUFSIZ] iterations are
    enough, because each one that continues has buffered at least a byte. *)
Lemma fill_loop_total (k : nat) :
  forall st : state,
    0 < INBUFSIZ <= INT_MAX ->
    0 <= insize st < INBUFSIZ ->
    INBUFSIZ - insize st <= Z.of_nat k ->
    terminates (fill_loop k st).
Proof.
  induction k as [|k IH]; intros st HN Hi Hk; [lia|].
  rewrite fill_loop_step.
  assert (Hu : u32 (INBUFSIZ - insize st) = INBUFSIZ - insize st).
  { apply u32_small. unfold UINT_MOD, INT_MAX in *. lia. }
  rewrite Hu.
  destruct (read_buffer_spec (ifd (cfg st)) (Inbuf, insize st) st
              (cnt := INBUFSIZ - insize st))
    as (len & s1 & E & Hl & F); [lia|].
  rewrite E.
  destruct (len =? 0) eqn:E0; [exact I|].
  destruct (len =? -1) eqn:E1; [rewrite read_error_eq; exact I|].
  apply Z.eqb_neq in E0, E1.
  assert (Hu2 : u32 (insize st + len) = insize st + len).
  { apply u32_small. unfold UINT_MOD, INT_MAX in *. lia. }
  rewrite Hu2.
  destruct (insize st + len <? INBUFSIZ) eqn:E2; [|exact I].
  apply Z.ltb_lt in E2. apply IH; cbn [insize set_insize]; lia.
Qed.

Lemma absorb_eq (s : state) (c : list byte) (r : list read_event) :
  w_in (os s) = RdData c :: r ->
  absorb s c =
  set_insize (insize s + Z.of_nat (List.length c))
    (set_mem (store (mem s) (Inbuf, insize s) c)
       (set_os (set_w_in r (os s)) s)).
Proof. intros H. unfold absorb. rewrite H. reflexivity. Qed.

Lemma total_length_cons (c : list byte) (cs : list (list byte)) :
  total_length (c :: cs) = Z.of_nat (List.length c) + total_length cs.
Proof.
  unfold total_length. cbn [concat]. rewrite length_app. lia.
Qed.

(** While the chunks that the input delivers fit in the buffer, the read
    loop takes them one per iteration. *)
Lemma fill_loop_chunks (chunks : list (list byte)) :
  forall (k : nat) (st : state) (rest : list read_event),
    0 < INBUFSIZ <= INT_MAX ->
    w_in (os st) = map RdData chunks ++ rest ->
    Forall (fun c => c <> []) chunks ->
    0 <= insize st ->
    insize st + total_length chunks < INBUFSIZ ->
    fill_loop (List.length chunks + k) st =
    fill_loop k (fold_left absorb chunks st) /\
    w_in (os (fold_left absorb chunks st)) = rest /\
    insize (fold_left absorb chunks st) = insize st + total_length chunks /\
    cfg (fold_left absorb chunks st) = cfg st.
Proof.
  induction chunks as [|c cs IH]; intros k st rest HN Hin Hne Hi Ht.
  - cbn. unfold total_length. cbn. repeat split; try assumption. lia.
  - rewrite total_length_cons in Ht. inversion Hne as [|? ? Hc Hcs]; subst.
    assert (Hlen : 0 < Z.of_nat (List.length c)).
    { destruct c; [congruence | cbn [List.length]; lia]. }
    assert (Htl : 0 <= total_length cs) by (unfold total_length; lia).
    cbn [map app] in Hin.
    cbn [List.length Nat.add fold_left]. rewrite fill_loop_step.
    assert (Hu : u32 (INBUFSIZ - insize st) = INBUFSIZ - insize st).
    { apply u32_small. unfold UINT_MOD, INT_MAX in *. lia. }
    rewrite Hu.
    rewrite (read_buffer_data _ _ (cnt := INBUFSIZ - insize st) st Hin) by lia.
    replace (Z.of_nat (List.length c) =? 0) with false
      by (symmetry; apply Z.eqb_neq; lia).
    replace (Z.of_nat (List.length c) =? -1) with false
      by (symmetry; apply Z.eqb_neq; lia).
    assert (Hu2 : u32 (insize st + Z.of_nat (List.length c)) =
                  insize st + Z.of_nat (List.length c)).
    { apply u32_small. unfold UINT_MOD, INT_MAX in *. lia. }
    rewrite Hu2.
    replace (insize st + Z.of_nat (List.length c) <? INBUFSIZ) with true
      by (symmetry; apply Z.ltb_lt; lia).
    rewrite <- (absorb_eq st Hin).
    destruct (IH k (absorb st c) rest HN) as (E & Hr & Hs & Hcf).
    + rewrite (absorb_eq st Hin). reflexivity.
    + assumption.
    + rewrite (absorb_eq st Hin). cbn [insize set_insize]. lia.
    + rewrite (absorb_eq st Hin). cbn [insize set_insize]. lia.
    + split; [exact E|]. split; [exact Hr|]. split.
      * rewrite Hs, (absorb_eq st Hin). cbn [insize set_insize].
        rewrite total_length_cons. lia.
      * rewrite Hcf, (absorb_eq st Hin). reflexivity.
Qed.

Lemma fill_inbuf_eq (fuel : nat) (eof_ok : Z) (st : state) :
  fill_inbuf fuel eof_ok st =
  match fill_loop (S (Z.to_nat INBUFSIZ)) (set_insize 0 st) with
  | Ret _ s1 =>
      if insize s1 =? 0 then
        if negb (eof_ok =? 0) then Ret EOF s1
        else
          match flush_window fuel s1 with
          | Ret _ s2 =>
              Exit ERROR
                (printed (diagnostic (program_name (cfg s2)) (ifname (cfg s2))
                            "unexpected end of file")
                   (set_errno 0 s2))
          | Exit c s2 => Exit c s2
          | OutOfFuel => OutOfFuel
          end
      else
        Ret (byte_to_Z (nth 0 (inbuf (mem s1)) x00))
            (set_inptr 1 (set_bytes_in (bytes_in s1 + insize s1) s1))
  | Exit c s1 => Exit c s1
  | OutOfFuel => OutOfFuel
  end.
Proof.
  unfold fill_inbuf. unfold bind at 1, modify at 1. unfold bind at 1.
  destruct (fill_loop _ (set_insize 0 st)) as [[] s1| |]; try reflexivity.
  unfold bind at 1, get at 1.
  destruct (insize s1 =? 0); [|reflexivity].
  destruct (negb (eof_ok =? 0)); [reflexivity|].
  unfold bind at 1.
  destruct (flush_window fuel s1) as [[] s2| |]; reflexivity.
Qed.

Lemma length_le_concat (chunks : list (list byte)) :
  Forall (fun c => c <> []) chunks ->
  Z.of_nat (List.length chunks) <= total_length chunks.
Proof.
  induction 1 as [|c cs Hc _ IH]; [unfold total_length; cbn; lia|].
  rewrite total_length_cons. cbn [List.length].
  destruct c; [congruence | cbn [List.length]; lia].
Qed.

(** The read loop started by [fill_inbuf] always ends. *)
Lemma fill_inbuf_loop_terminates (st : state) :
  0 < INBUFSIZ <= INT_MAX ->
  terminates (fill_loop (S (Z.to_nat INBUFSIZ)) (set_insize 0 st)).
Proof.
  intros HN. apply fill_loop_total; cbn [insize set_insize]; lia.
Qed.

(** EOF classification, end to end: on an exhausted source [fill_inbuf]
    returns [EOF] when that is acceptable, and otherwise (with nothing
    pending in the window) ends with the fatal read error. *)
Lemma fill_inbuf_exhausted (fuel : nat) (eof_ok : Z) (st : state) :
  w_in (os st) = [] ->
  (eof_ok <> 0 -> fill_inbuf fuel eof_ok st = Ret EOF (set_insize 0 st)) /\
  (eof_ok = 0 -> outcnt st = 0 ->
   fill_inbuf fuel eof_ok st =
   Exit ERROR
     (printed (diagnostic (program_name (cfg st)) (ifname (cfg st))
                 "unexpected end of file")
        (set_errno 0 (set_insize 0 st)))).
Proof.
  intros Hin.
  assert (Hloop : fill_loop (S (Z.to_nat INBUFSIZ)) (set_insize 0 st) =
                  Ret tt (set_insize 0 st)).
  { rewrite fill_loop_step, read_buffer_eof by exact Hin. reflexivity. }
  rewrite fill_inbuf_eq, Hloop. cbn [insize set_insize Z.eqb]. split.
  - intros He. apply Z.eqb_neq in He. rewrite He. reflexivity.
  - intros He Ho. rewrite He. cbn [Z.eqb negb].
    unfold flush_window, bind, get. cbn [outcnt set_insize]. rewrite Ho.
    reflexivity.
Qed.

End ReadProps.

(** ** Passthrough copy *)

Section CopyProps.
Context {P : Platform}.

Lemma set_w_written_same (s : state) :
  set_os (set_w_written (w_wcalls (os s)) (w_out (os s)) (os s)) s = s.
Proof. destruct s as [? ? ? ? ? ? ? ? ? []]. reflexivity. Qed.

(** [write_buf] with a writer that makes progress: the count is added to
    [bytes_out]; the bytes are delivered unless test mode is on. *)
Lemma write_buf_ok (fuel : nat) (fd : Z) (buf : ptr) (cnt : Z) (st : state) :
  writer_progress (w_wr (os st)) ->
  0 <= snd buf -> 0 <= cnt < UINT_MOD -> cnt < Z.of_nat fuel ->
  exists k,
    write_buf fuel fd buf cnt st =
    Ret tt (set_os (set_w_written k
                      (w_out (os st) ++
                       (if test (cfg st) =? 0 then load (mem st) buf cnt
                        else []))
                      (os st))
              (set_bytes_out (bytes_out st + cnt) st)).
Proof.
  intros Hw Hb Hc Hf. rewrite write_buf_eq.
  destruct (test (cfg st) =? 0) eqn:Et; cbn [negb].
  - destruct (write_loop_delivers fuel fd buf (cnt := cnt)
                (set_bytes_out (bytes_out st + cnt) st)) as (k & E & _);
      try assumption.
    exists k. exact E.
  - exists (w_wcalls (os st)). rewrite app_nil_r.
    rewrite <- (set_w_written_same (set_bytes_out (bytes_out st + cnt) st)) at 1.
    reflexivity.
Qed.

Lemma copy_loop_step (fuel k : nat) (in_ out : Z) (st : state) :
  copy_loop fuel (S k) in_ out st =
  if inptr st <? insize st then
    match write_buf fuel out (Inbuf, inptr st) (u32 (insize st - inptr st)) st with
    | Ret _ s1 =>
        match read_buffer in_ (Inbuf, 0) INBUFSIZ s1 with
        | Ret got s2 =>
            if got =? -1 then
              Exit ERROR
                (printed (diagnostic (program_name (cfg s2)) (ifname (cfg s2))
                            (if errno s2 =? 0 then "unexpected end of file"
                             else strerror (errno s2))) s2)
            else
              copy_loop fuel k in_ out
                (set_inptr 0 (set_insize (u32 got)
                                (set_bytes_in (bytes_in s2 + got) s2)))
        | Exit c s2 => Exit c s2
        | OutOfFuel => OutOfFuel
        end
    | Exit c s1 => Exit c s1
    | OutOfFuel => OutOfFuel
    end
  else Ret tt st.
Proof.
  cbn [copy_loop]. unfold bind at 1, get at 1.
  destruct (inptr st <? insize st); [|reflexivity].
  unfold bind at 1.
  destruct (write_buf fuel out _ _ st) as [[] s1| |]; try reflexivity.
  unfold bind at 1.
  destruct (read_buffer in_ _ _ s1) as [got s2| |]; try reflexivity.
  unfold bind at 1.
  destruct (got =? -1); reflexivity.
Qed.

Lemma u32_0 : u32 0 = 0.
Proof. reflexivity. Qed.

Lemma load_store_inbuf (m : memory) (c : list byte) :
  load (store m (Inbuf, 0) c) (Inbuf, 0) (Z.of_nat (List.length c)) = c.
Proof.
  unfold load, store, splice. cbn [fst snd set_array array inbuf].
  rewrite Nat2Z.id. change (Z.to_nat 0) with O.
  cbn [firstn skipn app Nat.add].
  rewrite firstn_app, Nat.sub_diag, firstn_all. cbn [firstn].
  apply app_nil_r.
Qed.

Lemma copy_loop_chunks (fuel : nat) (in_ out : Z) (chunks : list (list byte)) :
  forall (k : nat) (st : state),
    0 < INBUFSIZ <= INT_MAX ->
    writer_progress (w_wr (os st)) ->
    w_in (os st) = map RdData chunks ->
    Forall (chunk_ok fuel) chunks ->
    0 <= inptr st < insize st -> insize st < UINT_MOD ->
    insize st - inptr st < Z.of_nat fuel ->
    (List.length chunks + 2 <= k)%nat ->
    exists st',
      copy_loop fuel k in_ out st = Ret tt st' /\
      bytes_in st' = bytes_in st + total_length chunks /\
      bytes_out st' =
        bytes_out st + (insize st - inptr st) + total_length chunks /\
      insize st' = 0 /\ inptr st' = 0 /\
      w_in (os st') = [] /\
      w_out (os st') =
        w_out (os st) ++
        (if test (cfg st) =? 0
         then load (mem st) (Inbuf, inptr st) (insize st - inptr st) ++
              concat chunks
         else []) /\
      crc st' = crc st /\ errno st' = errno st /\ cfg st' = cfg st.
Proof.
  induction chunks as [|c cs IH];
    intros k st HN Hw Hin Hok Hp Hs Hf Hk.
  - destruct k as [|[|k]]; [cbn in Hk; lia | cbn in Hk; lia |].
    rewrite copy_loop_step.
    replace (inptr st <? insize st) with true by (symmetry; apply Z.ltb_lt; lia).
    assert (Hu : u32 (insize st - inptr st) = insize st - inptr st)
      by (apply u32_small; lia).
    rewrite Hu.
    destruct (write_buf_ok fuel out (Inbuf, inptr st) (cnt := insize st - inptr st) st)
      as (kw & E); [assumption | cbn; lia | lia | lia |].
    rewrite E. rewrite read_buffer_eof by exact Hin.
    cbn [Z.eqb]. rewrite u32_0, copy_loop_step.
    cbn [inptr insize set_inptr set_insize Z.ltb Z.compare].
    eexists. split; [reflexivity|].
    cbn. unfold total_length. cbn.
    rewrite app_nil_r.
    repeat split; try lia; try assumption.
  - destruct k as [|k]; [cbn in Hk; lia|].
    inversion Hok as [|? ? (Hc & HcN & Hcf) Hcs]; subst.
    assert (Hlen : 0 < Z.of_nat (List.length c)).
    { destruct c; [congruence | cbn [List.length]; lia]. }
    rewrite copy_loop_step.
    replace (inptr st <? insize st) with true by (symmetry; apply Z.ltb_lt; lia).
    assert (Hu : u32 (insize st - inptr st) = insize st - inptr st)
      by (apply u32_small; lia).
    rewrite Hu.
    destruct (write_buf_ok fuel out (Inbuf, inptr st) (cnt := insize st - inptr st) st)
      as (kw & E); [assumption | cbn; lia | lia | lia |].
    rewrite E. cbn [map] in Hin.
    match goal with |- context [read_buffer in_ _ _ ?s] => set (s1 := s) end.
    assert (Hin1 : w_in (os s1) = RdData c :: map RdData cs) by exact Hin.
    rewrite (read_buffer_data in_ (Inbuf, 0) (cnt := INBUFSIZ) s1 Hin1) by lia.
    replace (Z.of_nat (List.length c) =? -1) with false
      by (symmetry; apply Z.eqb_neq; lia).
    assert (Hu2 : u32 (Z.of_nat (List.length c)) = Z.of_nat (List.length c)).
    { apply u32_small. unfold UINT_MOD, INT_MAX in *. lia. }
    rewrite Hu2.
    match goal with |- context [copy_loop fuel k in_ out ?s] => set (s3 := s) end.
    destruct (IH k s3) as (st' & E' & Hbi & Hbo & Hi & Hpt & Hwi & Hwo & Hcr & He & Hcfg).
    + exact HN.
    + exact Hw.
    + reflexivity.
    + exact Hcs.
    + subst s3. cbn [inptr insize set_inptr set_insize]. lia.
    + subst s3. cbn [inptr insize set_inptr set_insize].
      unfold UINT_MOD, INT_MAX in *. lia.
    + subst s3. cbn [inptr insize set_inptr set_insize]. lia.
    + cbn [List.length] in Hk. lia.
    + exists st'. split; [exact E'|].
      rewrite Hbi, Hbo, Hi, Hpt, Hwi, Hwo, Hcr, He, Hcfg.
      rewrite total_length_cons.
      subst s3 s1. cbn -[load store Z.add Z.sub Z.of_nat].
      rewrite Z.sub_0_r, load_store_inbuf.
      repeat split; try lia.
      destruct (test (cfg st) =? 0).
      * cbn [concat]. rewrite <- !app_assoc. reflexivity.
      * rewrite !app_nil_r. reflexivity.
Qed.

(** With nothing unread in the buffer [copy] returns at once. *)
Lemma copy_nothing_unread (fuel : nat) (in_ out : Z) (st : state) :
  insize st <= inptr st ->
  copy (S fuel) in_ out st = Ret OK (set_errno 0 st).
Proof.
  intros H. unfold copy. unfold bind at 1, modify at 1. unfold bind at 1.
  rewrite copy_loop_step. cbn [inptr insize set_errno].
  replace (inptr st <? insize st) with false by (symmetry; apply Z.ltb_ge; lia).
  reflexivity.
Qed.

End CopyProps.

(** ** Test mode *)

Section TestMode.
Context {P : Platform}.

Lemma io_frame_quiet (s t : state) : io_frame s t -> quiet_frame s t.
Proof. unfold io_frame, quiet_frame. intuition. Qed.



(** *** Reads do not see the test flag nor what has been written *)








(** The read loop leaves the pending output count and the output side of
    the world alone. *)
Lemma fill_loop_quiet (n : nat) :
  forall s : state,
    0 < INBUFSIZ <= INT_MAX -> 0 <= insize s < INBUFSIZ ->
    match fill_loop n s with
    | Ret _ t | Exit _ t => quiet_frame s t /\ outcnt t = outcnt s
    | OutOfFuel => True
    end.
Proof.
  induction n as [|n IH]; intros s HN Hi; [exact I|].
  rewrite fill_loop_step.
  assert (Hu : u32 (INBUFSIZ - insize s) = INBUFSIZ - insize s).
  { apply u32_small. unfold UINT_MOD, INT_MAX in *. lia. }
  rewrite Hu.
  destruct (read_buffer_spec (ifd (cfg s)) (Inbuf, insize s) s
              (cnt := INBUFSIZ - insize s))
    as (len & s1 & E & Hl & F); [lia|].
  rewrite E.
  assert (Q : quiet_frame s s1 /\ outcnt s1 = outcnt s).
  { split; [now apply io_frame_quiet | apply F]. }
  destruct (len =? 0) eqn:E0; [exact Q|].
  destruct (len =? -1) eqn:E1.
  { rewrite read_error_eq. destruct Q as [(A & B & C & D) O].
    repeat split; assumption. }
  apply Z.eqb_neq in E0, E1.
  assert (Hu2 : u32 (insize s + len) = insize s + len).
  { apply u32_small. unfold UINT_MOD, INT_MAX in *. lia. }
  rewrite Hu2.
  destruct (insize s + len <? INBUFSIZ) eqn:E2.
  - apply Z.ltb_lt in E2.
    specialize (IH (set_insize (insize s + len) s1) HN).
    destruct (fill_loop n _) as [[] t|c t|]; try exact I;
      (destruct IH as [(A & B & C & D) O];
       [cbn [insize set_insize]; lia|];
       destruct Q as [(A' & B' & C' & D') O'];
       cbn [cfg os outcnt set_insize] in *;
       repeat split; congruence).
  - destruct Q as [(A' & B' & C' & D') O']. repeat split; assumption.
Qed.

(** *** Writes: counted in both modes, issued only in a real run *)

Lemma write_buf_test (fuel : nat) (fd : Z) (buf : ptr) (cnt : Z) (s : state) :
  test (cfg s) <> 0 ->
  write_buf fuel fd buf cnt s = Ret tt (set_bytes_out (bytes_out s + cnt) s).
Proof.
  intros Ht. rewrite write_buf_eq. apply Z.eqb_neq in Ht. rewrite Ht.
  reflexivity.
Qed.


Lemma flush_window_eq (fuel : nat) (s : state) :
  flush_window fuel s =
  if outcnt s =? 0 then Ret tt s
  else
    match write_buf fuel (ofd (cfg s)) (Window, 0) (outcnt s)
            (set_crc (crc32_update (crc s)
                        (load (mem s) (Window, 0) (outcnt s))) s) with
    | Ret _ s2 => Ret tt (set_outcnt 0 s2)
    | Exit c s2 => Exit c s2
    | OutOfFuel => OutOfFuel
    end.
Proof.
  unfold flush_window. unfold bind at 1, get at 1.
  destruct (outcnt s =? 0); [reflexivity|].
  unfold bind at 1. rewrite updcrc_eq. cbv zeta. unfold bind at 1.
  destruct (write_buf _ _ _ _ _) as [[] s2| |]; reflexivity.
Qed.

Lemma flush_outbuf_eq (fuel : nat) (s : state) :
  flush_outbuf fuel s =
  if outcnt s =? 0 then Ret tt s
  else
    match write_buf fuel (ofd (cfg s)) (Outbuf, 0) (outcnt s) s with
    | Ret _ s2 => Ret tt (set_outcnt 0 s2)
    | Exit c s2 => Exit c s2
    | OutOfFuel => OutOfFuel
    end.
Proof.
  unfold flush_outbuf. unfold bind at 1, get at 1.
  destruct (outcnt s =? 0); [reflexivity|].
  unfold bind at 1.
  destruct (write_buf _ _ _ _ _) as [[] s2| |]; reflexivity.
Qed.



(** *** Operations and sessions *)






End TestMode.

(** * The properties at concrete inputs *)

Lemma linux_INBUFSIZ_ok : 0 < @INBUFSIZ linux <= INT_MAX.
Proof. cbn [INBUFSIZ linux]. unfold INT_MAX. lia. Qed.

Lemma one_byte_writer_progress : writer_progress one_byte_writer.
Proof. intros k. exists 1. split; [reflexivity | lia]. Qed.

(** "banana" in two chunks "ban" and "ana", and in one. *)
Lemma updcrc_streaming_witness :
  load (mem st_banana) (Window, 0) 3 = bytes "ban" /\
  load (mem st_banana) (Window, 3) 3 = bytes "ana" /\
  load (mem st_banana) (Window, 0) 6 = bytes "ban" ++ bytes "ana" /\
  (updcrc (Some (Window, 0)) 3 ;; updcrc (Some (Window, 3)) 3) st_banana =
  updcrc (Some (Window, 0)) 6 st_banana.
Proof.
  refine ((fun H1 H2 H3 =>
             conj H1 (conj H2 (conj H3
               (@updcrc_streaming st_banana (bytes "ban") (bytes "ana")
                  (Window, 0) (Window, 3) (Window, 0) 3 3 6 H1 H2 H3))))
            _ _ _); reflexivity.
Defined.

Example updcrc_banana :
  exists st', updcrc (Some (Window, 0)) 6 st_banana = Ret 0x038b67cf st'.
Proof. eexists. vm_compute. reflexivity. Qed.

Lemma updcrc_null_resets_zero_length_keeps_witness :
  0 <= crc (set_crc 0x038b67cf st_banana) < UINT_MOD /\
  updcrc None 7 (set_crc 0x038b67cf st_banana) = Ret 0 (set_crc 0 st_banana) /\
  updcrc (Some (Window, 0)) 0 (set_crc 0x038b67cf st_banana) =
  Ret 0x038b67cf (set_crc 0x038b67cf st_banana).
Proof.
  refine ((fun H =>
             conj H (@updcrc_null_resets_zero_length_keeps
                       (set_crc 0x038b67cf st_banana) 7 (Window, 0) H)) _).
  cbn [crc set_crc]. unfold UINT_MOD. lia.
Defined.

Example write_buf_one_byte_at_a_time :
  exists st',
    write_buf (P := linux) 4 1 (Outbuf, 0) 3 st_abc = Ret tt st' /\
    w_out (os st') = bytes "abc" /\ w_wcalls (os st') = 3%nat /\
    bytes_out st' = 3.
Proof. eexists. vm_compute. repeat split. Qed.

(** Quiet mode, the reader went away: warning severity, nothing printed.
    No space left on device: error severity, diagnostic printed. *)
Lemma write_error_classification_witness :
  write_error (P := linux) (st_werr 32 1) = Exit WARNING (st_werr 32 1) /\
  write_error (P := linux) (st_werr 28 1) =
  Exit ERROR
    (printed (diagnostic "gzip" "out" "No space left on device")
       (st_werr 28 1)).
Proof.
  split.
  - exact (proj1 (@write_error_classification linux (st_werr 32 1)) eq_refl).
  - refine (proj2 (@write_error_classification linux (st_werr 28 1)) _).
    cbn. discriminate.
Defined.

(** The claim as stated fails: nothing has been read, end of file is
    acceptable, the read fails, and [fill_inbuf] does not return [EOF] but
    ends the process with the read diagnostic. *)
Lemma fill_inbuf_eof_ok_read_failure_cex :
  insize (set_insize 0 st_rderr) = 0 /\
  (exists s1,
     read_buffer (P := linux) (ifd (cfg st_rderr)) (Inbuf, 0)
       (u32 (@INBUFSIZ linux)) (set_insize 0 st_rderr) = Ret (-1) s1) /\
  (forall s', fill_inbuf (P := linux) 1 1 st_rderr <> Ret EOF s') /\
  exists s',
    fill_inbuf (P := linux) 1 1 st_rderr = Exit ERROR s' /\
    w_err (os s') = [diagnostic "gzip" "in.gz" "Input/output error"].
Proof.
  assert (E : exists s',
             fill_inbuf (P := linux) 1 1 st_rderr = Exit ERROR s' /\
             w_err (os s') = [diagnostic "gzip" "in.gz" "Input/output error"]).
  { eexists. vm_compute. split; reflexivity. }
  split; [reflexivity|]. split; [eexists; vm_compute; reflexivity|].
  split; [|exact E].
  destruct E as (s' & E & _). intros s'' H. rewrite E in H. discriminate.
Qed.

Example copy_passes_everything :
  exists st',
    copy (P := linux) 4 0 1 st_copy = Ret OK st' /\
    w_out (os st') = bytes "abcd" /\ bytes_in st' = 4 /\ bytes_out st' = 4.
Proof. eexists. vm_compute. repeat split. Qed.

(** The claim as stated fails: with one unread byte and the input at end of
    file, [copy] writes the byte, reads end of file and returns [OK]; no
    read error is raised. *)
Lemma copy_returns_normally_at_eof_cex :
  inptr st_copy_eof < insize st_copy_eof /\
  w_in (os st_copy_eof) = [] /\
  exists st',
    copy (P := linux) 3 0 1 st_copy_eof = Ret OK st' /\
    w_out (os st') = bytes "a" /\ w_err (os st') = [].
Proof.
  split; [reflexivity|]. split; [reflexivity|].
  eexists. vm_compute. repeat split.
Qed.

Example fill_inbuf_returns_first_byte :
  exists st',
    fill_inbuf (P := linux) 1 1 st_hi = Ret 104 st' /\
    bytes_in st' = 2 /\ inptr st' = 1 /\ insize st' = 2.
Proof. eexists. vm_compute. repeat split. Qed.

(** Another display name and another [errno]: the same line. *)
Lemma xalloc_die_fatal_fixed_message_witness :
  program_name (cfg (st_werr 28 1)) = program_name (cfg st_banana) /\
  exists msg,
    msg = (nl ++ program_name (cfg st_banana) ++ ": memory_exhausted" ++ nl)%string /\
    xalloc_die st_banana = Exit ERROR (printed msg st_banana) /\
    xalloc_die (st_werr 28 1) = Exit ERROR (printed msg (st_werr 28 1)).
Proof.
  refine ((fun H =>
             conj H (@xalloc_die_fatal_fixed_message st_banana (st_werr 28 1) H))
            _).
  reflexivity.
Defined.

(** The claim as stated fails on the text of the message: what is printed
    is "memory_exhausted", and the words "memory exhausted" do not occur in
    it. *)
Lemma xalloc_die_message_cex :
  exists s' msg,
    xalloc_die st_banana = Exit ERROR s' /\
    w_err (os s') = [msg] /\
    mentions "memory exhausted" msg = false /\
    mentions "memory_exhausted" msg = true.
Proof. do 2 eexists. vm_compute. repeat split. Qed.


Example banana_session_real_run :
  exists st',
    run (P := linux) 4 banana_session (set_cfg (set_test 0 (cfg st_test)) st_test)
    = Ret tt st' /\
    w_out (os st') = bytes "banana" /\ bytes_out st' = 6 /\ bytes_in st' = 2 /\
    crc st' = crc32_update 0 (bytes "banana").
Proof. eexists. vm_compute. repeat split. Qed.

Example banana_session_test_run :
  exists st',
    run (P := linux) 4 banana_session st_test = Ret tt st' /\
    w_out (os st') = [] /\ w_wcalls (os st') = 0%nat /\
    bytes_out st' = 6 /\ bytes_in st' = 2 /\
    crc st' = crc32_update 0 (bytes "banana").
Proof. eexists. vm_compute. repeat split. Qed.

(** * Further properties of util.c *)

(** ** Writing: failures, stalls and the order of effects *)

Section MoreWrite.
Context {P : Platform}.

Lemma write_frame_refl (s : state) : write_frame s s.
Proof. repeat split. Qed.

Lemma write_frame_trans (a b c : state) :
  write_frame a b -> write_frame b c -> write_frame a c.
Proof. unfold write_frame. intuition congruence. Qed.

Lemma write_buffer_frame (fd : Z) (buf : ptr) (cnt : Z) (s : state) :
  exists n s', write_buffer fd buf cnt s = Ret n s' /\ write_frame s s'.
Proof.
  unfold write_buffer, sys_write. cbv zeta.
  destruct (w_wr (os s) (w_wcalls (os s))); do 2 eexists;
    (split; [reflexivity | repeat split]).
Qed.

Lemma write_error_frame (s : state) :
  exists c s', write_error s = Exit c s' /\ write_frame s s'.
Proof.
  unfold write_error, bind, get, finish_up_gzip, exit.
  destruct (negb _); do 2 eexists; (split; [reflexivity | repeat split]).
Qed.

Lemma write_loop_frame (fuel : nat) :
  forall (fd : Z) (buf : ptr) (cnt : Z) (s : state),
    match write_loop fuel fd buf cnt s with
    | Ret _ s' | Exit _ s' => write_frame s s'
    | OutOfFuel => True
    end.
Proof.
  induction fuel as [|fuel IH]; intros fd buf cnt s; [exact I|].
  cbn [write_loop]. unfold bind at 1.
  destruct (write_buffer_frame fd buf cnt s) as (r & s1 & E & F).
  rewrite E. destruct (u32 r =? cnt); [exact F|].
  unfold bind at 1.
  destruct (u32 r =? u32 (-1)).
  - destruct (write_error_frame s1) as (c & s2 & E2 & F2). rewrite E2.
    eapply write_frame_trans; eassumption.
  - unfold ret at 1.
    specialize (IH fd (ptr_add buf (u32 r)) (u32 (cnt - u32 r)) s1).
    destruct (write_loop fuel fd _ _ s1); try exact I;
      (eapply write_frame_trans; eassumption).
Qed.

(** [write_buf] counts first and then only writes. *)
Lemma write_buf_frame (fuel : nat) (fd : Z) (buf : ptr) (cnt : Z) (s : state) :
  match write_buf fuel fd buf cnt s with
  | Ret _ s' | Exit _ s' =>
      write_frame (set_bytes_out (bytes_out s + cnt) s) s'
  | OutOfFuel => True
  end.
Proof.
  rewrite write_buf_eq. destruct (negb (test (cfg s) =? 0)).
  - apply write_frame_refl.
  - apply write_loop_frame.
Qed.

(** In every outcome of [write_buf] the output counter has grown by the
    whole requested count, and nothing but the counter, [errno] and the
    output side of the world has changed. *)
Theorem write_buf_counts_whole_request (fuel : nat) (fd : Z) (buf : ptr)
    (cnt : Z) (s : state) :
  match write_buf fuel fd buf cnt s with
  | Ret _ s' | Exit _ s' =>
      bytes_out s' = bytes_out s + cnt /\
      crc s' = crc s /\ bytes_in s' = bytes_in s /\ insize s' = insize s /\
      inptr s' = inptr s /\ outcnt s' = outcnt s /\ mem s' = mem s
  | OutOfFuel => True
  end.
Proof.
  pose proof (write_buf_frame fuel fd buf cnt s) as F.
  destruct (write_buf fuel fd buf cnt s) as [[] s'|c s'|]; try exact I;
    destruct F as (F1 & F2 & F3 & F4 & F5 & F6 & F7 & F8 & F9);
    cbn in *; repeat split; assumption.
Qed.

Lemma write_loop_fails_first (fuel : nat) (fd : Z) (buf : ptr) (cnt e : Z)
    (s : state) :
  w_wr (os s) (w_wcalls (os s)) = SysErr e ->
  cnt <> UINT_MOD - 1 ->
  write_loop (S fuel) fd buf cnt s = write_error (write_failed e s).
Proof.
  intros Hw Hc. cbn [write_loop]. unfold bind at 1.
  unfold write_buffer, sys_write. cbv zeta. rewrite Hw.
  change (u32 (-1)) with (UINT_MOD - 1).
  replace (UINT_MOD - 1 =? cnt) with false
    by (symmetry; apply Z.eqb_neq; congruence).
  unfold bind at 1. rewrite Z.eqb_refl.
  fold (write_failed e s).
  destruct (write_error_frame (write_failed e s)) as (c & s2 & E2 & _).
  rewrite E2. reflexivity.
Qed.


(** When the request is of [UINT_MAX] bytes, a failed write, which the
    loop sees as [(unsigned)(-1)], equals the count: [write_buf] takes it
    for a complete write and returns without raising the write error. *)
Theorem write_buf_uint_max_hides_failure (fuel : nat) (fd : Z) (buf : ptr)
    (e : Z) (s : state) :
  test (cfg s) = 0 ->
  w_wr (os s) (w_wcalls (os s)) = SysErr e ->
  write_buf (S fuel) fd buf (UINT_MOD - 1) s =
  Ret tt (write_failed e (set_bytes_out (bytes_out s + (UINT_MOD - 1)) s)).
Proof.
  intros Ht Hw. rewrite write_buf_eq, Ht. cbn [Z.eqb negb].
  cbn [write_loop]. unfold bind at 1.
  unfold write_buffer, sys_write. cbv zeta.
  cbn [os set_bytes_out]. rewrite Hw.
  change (u32 (-1)) with (UINT_MOD - 1). rewrite Z.eqb_refl. reflexivity.
Qed.

(** The write loop has no retry bound: while the output takes no byte it
    keeps writing, whatever the number of iterations allowed. *)
Theorem write_loop_stalls (fuel : nat) :
  forall (fd : Z) (buf : ptr) (cnt : Z) (s : state),
    (forall k, w_wr (os s) k = SysOk 0) ->
    0 < cnt < UINT_MOD ->
    write_loop fuel fd buf cnt s = OutOfFuel.
Proof.
  induction fuel as [|fuel IH]; intros fd buf cnt s Hw Hc; [reflexivity|].
  cbn [write_loop]. unfold bind at 1.
  unfold write_buffer, sys_write. cbv zeta. rewrite Hw.
  assert (Hn : Z.max 0 (Z.min 0 (if INT_MAX <? cnt then INT_MAX else cnt)) = 0).
  { unfold INT_MAX. destruct (_ <? cnt); lia. }
  rewrite Hn. change (u32 0) with 0.
  replace (0 =? cnt) with false by (symmetry; apply Z.eqb_neq; lia).
  change (u32 (-1)) with (UINT_MOD - 1).
  replace (0 =? UINT_MOD - 1) with false by reflexivity.
  unfold bind at 1. unfold ret at 1.
  rewrite Z.sub_0_r, (u32_small (x := cnt)) by lia.
  apply IH; [exact Hw | exact Hc].
Qed.

End MoreWrite.

(** ** Flushing *)

Section MoreFlush.
Context {P : Platform}.

(** [flush_window] puts the window through the checksum and counts it
    before it writes: however the write ends, the register holds the
    window's bytes and [bytes_out] counts them; the pending count is
    cleared only when the write returns. *)
Theorem flush_window_checksum_before_write (fuel : nat) (s : state) :
  outcnt s <> 0 ->
  match flush_window fuel s with
  | Ret _ s' =>
      crc s' = crc32_update (crc s) (load (mem s) (Window, 0) (outcnt s)) /\
      bytes_out s' = bytes_out s + outcnt s /\ outcnt s' = 0
  | Exit _ s' =>
      crc s' = crc32_update (crc s) (load (mem s) (Window, 0) (outcnt s)) /\
      bytes_out s' = bytes_out s + outcnt s /\ outcnt s' = outcnt s
  | OutOfFuel => True
  end.
Proof.
  intros Ho. rewrite flush_window_eq. apply Z.eqb_neq in Ho. rewrite Ho.
  pose proof (write_buf_frame fuel (ofd (cfg s)) (Window, 0)
                (outcnt s)
                (set_crc (crc32_update (crc s)
                            (load (mem s) (Window, 0) (outcnt s))) s)) as F.
  destruct (write_buf fuel _ _ _ _) as [[] s'|c s'|]; try exact I;
    destruct F as (F1 & F2 & F3 & F4 & F5 & F6 & F7 & F8 & F9);
    cbn in *; repeat split; assumption.
Qed.

(** [flush_outbuf] never touches the checksum, the input side or the
    arrays, however it ends, and counts the pending bytes in [bytes_out]. *)
Theorem flush_outbuf_keeps_checksum (fuel : nat) (s : state) :
  match flush_outbuf fuel s with
  | Ret _ s' =>
      crc s' = crc s /\ bytes_in s' = bytes_in s /\ insize s' = insize s /\
      inptr s' = inptr s /\ mem s' = mem s /\
      bytes_out s' = bytes_out s + outcnt s /\ outcnt s' = 0
  | Exit _ s' =>
      crc s' = crc s /\ bytes_in s' = bytes_in s /\ insize s' = insize s /\
      inptr s' = inptr s /\ mem s' = mem s /\
      bytes_out s' = bytes_out s + outcnt s /\ outcnt s' = outcnt s
  | OutOfFuel => True
  end.
Proof.
  rewrite flush_outbuf_eq. destruct (outcnt s =? 0) eqn:Ho.
  - apply Z.eqb_eq in Ho. rewrite Ho. repeat split; lia.
  - pose proof (write_buf_frame fuel (ofd (cfg s)) (Outbuf, 0)
                  (outcnt s) s) as F.
    destruct (write_buf fuel _ _ _ _) as [[] s'|c s'|]; try exact I;
      destruct F as (F1 & F2 & F3 & F4 & F5 & F6 & F7 & F8 & F9);
      cbn in *; repeat split; assumption.
Qed.

(** Flushing twice is flushing once: the second flush finds nothing
    pending and neither writes nor counts nor checksums again. *)
Theorem flush_twice (fuel : nat) (s : state) :
  (flush_window fuel ;; flush_window fuel) s = flush_window fuel s /\
  (flush_outbuf fuel ;; flush_outbuf fuel) s = flush_outbuf fuel s.
Proof.
  split.
  - unfold bind. rewrite (flush_window_eq fuel s).
    destruct (outcnt s =? 0) eqn:Ho.
    + rewrite flush_window_eq, Ho. reflexivity.
    + destruct (write_buf fuel _ _ _ _) as [[] s'|c s'|]; reflexivity.
  - unfold bind. rewrite (flush_outbuf_eq fuel s).
    destruct (outcnt s =? 0) eqn:Ho.
    + rewrite flush_outbuf_eq, Ho. reflexivity.
    + destruct (write_buf fuel _ _ _ _) as [[] s'|c s'|]; reflexivity.
Qed.

Lemma flush_window_progress (fuel : nat) (s : state) :
  test (cfg s) = 0 ->
  writer_progress (w_wr (os s)) ->
  pending_ok fuel s ->
  exists s',
    flush_window fuel s = Ret tt s' /\
    w_out (os s') = w_out (os s) ++ load (mem s) (Window, 0) (outcnt s) /\
    bytes_out s' = bytes_out s + outcnt s /\
    outcnt s' = 0 /\ mem s' = mem s /\ cfg s' = cfg s /\
    w_err (os s') = w_err (os s).
Proof.
  intros Ht Hw ((Ho0 & Ho1) & Hof). rewrite flush_window_eq.
  destruct (outcnt s =? 0) eqn:Ho.
  - apply Z.eqb_eq in Ho. exists s. rewrite Ho.
    split; [reflexivity|]. rewrite app_nil_r. repeat split; lia.
  - set (c := crc32_update (crc s) (load (mem s) (Window, 0) (outcnt s))).
    destruct (@write_buf_ok P fuel (ofd (cfg s)) (Window, 0) (outcnt s)
                (set_crc c s)) as (k & E);
      [exact Hw | cbn; lia | lia | lia |].
    rewrite E. eexists. split; [reflexivity|].
    cbn [cfg set_crc set_os set_outcnt set_bytes_out os w_out set_w_written
         mem bytes_out outcnt w_err].
    rewrite Ht. repeat split.
Qed.

(** A real flush of the window with an output that makes progress delivers
    exactly the pending bytes of the window, in order, counts them and
    leaves nothing pending; the window itself is not changed. *)
Theorem flush_window_delivers (fuel : nat) (s : state) :
  test (cfg s) = 0 ->
  writer_progress (w_wr (os s)) ->
  pending_ok fuel s ->
  exists s',
    flush_window fuel s = Ret tt s' /\
    w_out (os s') = w_out (os s) ++ load (mem s) (Window, 0) (outcnt s) /\
    bytes_out s' = bytes_out s + outcnt s /\
    outcnt s' = 0 /\ mem s' = mem s.
Proof.
  intros Ht Hw Hp.
  destruct (flush_window_progress Ht Hw Hp) as (s' & E & A & B & C & D & _).
  exists s'. repeat split; assumption.
Qed.

End MoreFlush.

(** ** The checksum register *)

(** Resetting erases the history: after [updcrc (NULL, m)] the checksum of
    the next span does not depend on what the register held before.
    Reading the register with [getcrc] returns what the last [updcrc]
    returned and changes nothing. *)
Theorem updcrc_reset_erases_history (st : state) (c m n : Z) (p : ptr)
    (s : option ptr) :
  (updcrc None m ;; updcrc (Some p) n) (set_crc c st) =
  (updcrc None m ;; updcrc (Some p) n) st /\
  (updcrc s n ;; getcrc) st = updcrc s n st.
Proof.
  split.
  - unfold bind. rewrite !updcrc_eq. cbv beta iota zeta.
    rewrite !updcrc_eq. reflexivity.
  - unfold bind. rewrite updcrc_eq. reflexivity.
Qed.

(** ** Reading: the size cap and the non-blocking workaround *)

Section MoreRead.
Context {P : Platform}.

(** [read_buffer] always returns, with -1 or with a count that exceeds
    neither the request nor [INT_MAX]; it changes no cursor, no counter,
    not the checksum, and nothing on the output side. *)
Theorem read_buffer_result_range (fd : Z) (buf : ptr) (cnt : Z) (s : state) :
  0 <= cnt ->
  exists len s',
    read_buffer fd buf cnt s = Ret len s' /\
    -1 <= len <= cnt /\ len <= INT_MAX /\ io_frame s s'.
Proof.
  intros Hc. unfold read_buffer. cbv zeta.
  set (cnt' := if INT_MAX <? cnt then INT_MAX else cnt).
  assert (Hc' : 0 <= cnt' <= cnt /\ cnt' <= INT_MAX).
  { subst cnt'. unfold INT_MAX. destruct (_ <? cnt) eqn:E; lia. }
  destruct (sys_read_spec fd buf s (cnt := cnt')) as (len & s1 & E1 & Hl1 & F1);
    [lia|].
  unfold bind at 1. rewrite E1. unfold bind at 1, get at 1.
  destruct ((len <? 0) && (errno s1 =? EAGAIN)).
  - destruct (fcntl_getfl_spec fd s1) as (fl & s2 & E2 & F2).
    unfold bind at 1. rewrite E2.
    destruct (0 <=? fl).
    + destruct (Z.land fl O_NONBLOCK =? 0).
      * eexists len, _. split; [reflexivity|]. split; [lia|]. split; [lia|].
        eapply io_frame_trans; [exact F1|].
        eapply io_frame_trans; [exact F2|]. repeat split.
      * destruct (fcntl_setfl_spec fd (Z.land fl (Z.lnot O_NONBLOCK)) s2)
          as (r & s3 & E3 & F3).
        unfold bind at 1. rewrite E3.
        destruct (negb (r =? -1)).
        -- destruct (sys_read_spec fd buf s3 (cnt := cnt'))
             as (len' & s4 & E4 & Hl4 & F4); [lia|].
           exists len', s4. split; [exact E4|]. split; [lia|]. split; [lia|].
           eauto using io_frame_trans.
        -- exists len, s3. split; [reflexivity|]. split; [lia|]. split; [lia|].
           eauto using io_frame_trans.
    + exists len, s2. split; [reflexivity|]. split; [lia|]. split; [lia|].
      eauto using io_frame_trans.
  - exists len, s1. split; [reflexivity|]. split; [lia|]. split; [lia|].
    exact F1.
Qed.

(** The state after a read has failed with [e]. *)
Lemma sys_read_fails (fd : Z) (buf : ptr) (cnt e : Z) (rest : list read_event)
    (s : state) :
  w_in (os s) = RdErr e :: rest ->
  sys_read fd buf cnt s =
  Ret (-1) (set_errno e (set_os (set_w_in rest (os s)) s)).
Proof. intros H. unfold sys_read. rewrite H. reflexivity. Qed.

(** The workaround for descriptors opened [O_NONBLOCK]: when the read
    fails with [EAGAIN], the descriptor has [O_NONBLOCK] set and clearing
    it succeeds, [read_buffer] clears the flag, leaves it cleared, and
    returns whatever one second read returns; there is no further retry. *)
Theorem read_buffer_retries_once (fd : Z) (buf : ptr) (cnt flags v : Z)
    (rest : list read_event) (s : state) :
  w_in (os s) = RdErr EAGAIN :: rest ->
  w_getfl (os s) = SysOk flags -> 0 <= flags ->
  Z.land flags O_NONBLOCK <> 0 ->
  w_setfl (os s) = SysOk v -> v <> -1 ->
  read_buffer fd buf cnt s =
  sys_read fd buf (if INT_MAX <? cnt then INT_MAX else cnt)
    (set_os (set_w_getfl (SysOk (Z.land flags (Z.lnot O_NONBLOCK)))
               (set_w_in rest (os s)))
       (set_errno EAGAIN s)).
Proof.
  intros Hin Hg Hf Hnb Hs Hv. unfold read_buffer. cbv zeta.
  unfold bind at 1. rewrite (@sys_read_fails fd buf _ _ rest s Hin).
  unfold bind at 1, get at 1. cbn [errno set_errno].
  rewrite Z.eqb_refl. cbn [Z.ltb Z.compare andb].
  unfold bind at 1. unfold fcntl_getfl at 1.
  cbn [os set_errno set_os w_getfl set_w_in]. rewrite Hg.
  replace (0 <=? flags) with true by (symmetry; apply Z.leb_le; exact Hf).
  replace (Z.land flags O_NONBLOCK =? 0) with false
    by (symmetry; apply Z.eqb_neq; exact Hnb).
  unfold bind at 1. unfold fcntl_setfl at 1.
  cbn [os set_errno set_os w_setfl set_w_in]. rewrite Hs.
  replace (v =? -1) with false by (symmetry; apply Z.eqb_neq; exact Hv).
  reflexivity.
Qed.

(** No retry otherwise: a read that fails with another error, or with
    [EAGAIN] on a descriptor that is not [O_NONBLOCK], makes
    [read_buffer] return -1 after that single read, with [errno] telling
    the error. *)
Theorem read_buffer_no_retry (fd : Z) (buf : ptr) (cnt e flags : Z)
    (rest : list read_event) (s : state) :
  w_in (os s) = RdErr e :: rest ->
  e <> EAGAIN \/
  (w_getfl (os s) = SysOk flags /\ 0 <= flags /\
   Z.land flags O_NONBLOCK = 0) ->
  read_buffer fd buf cnt s =
  Ret (-1) (set_errno e (set_os (set_w_in rest (os s)) s)).
Proof.
  intros Hin Hcase. unfold read_buffer. cbv zeta.
  unfold bind at 1. rewrite (@sys_read_fails fd buf _ _ rest s Hin).
  unfold bind at 1, get at 1. cbn [errno set_errno Z.ltb Z.compare andb].
  destruct (e =? EAGAIN) eqn:Ee.
  - apply Z.eqb_eq in Ee.
    destruct Hcase as [Hne | (Hg & Hf & Hnb)]; [congruence|].
    unfold bind at 1. unfold fcntl_getfl at 1.
    cbn [os set_errno set_os w_getfl set_w_in]. rewrite Hg.
    replace (0 <=? flags) with true by (symmetry; apply Z.leb_le; exact Hf).
    rewrite Hnb. cbn [Z.eqb]. subst e. reflexivity.
  - reflexivity.
Qed.

End MoreRead.

(** ** Refilling the input buffer *)

Section MoreFill.
Context {P : Platform}.

Lemma byte_to_Z_range (b : byte) : 0 <= byte_to_Z b <= 255.
Proof.
  unfold byte_to_Z. pose proof (Byte.to_N_bounded b). lia.
Qed.

(** The read loop only moves the fill cursor forward, never beyond the
    buffer, and leaves the counters and the consume cursor alone. *)
Lemma fill_loop_bound (k : nat) :
  forall s : state,
    0 < INBUFSIZ <= INT_MAX -> 0 <= insize s < INBUFSIZ ->
    match fill_loop k s with
    | Ret _ t | Exit _ t =>
        insize s <= insize t <= INBUFSIZ /\ bytes_in t = bytes_in s /\
        inptr t = inptr s /\ bytes_out t = bytes_out s /\ crc t = crc s
    | OutOfFuel => True
    end.
Proof.
  induction k as [|k IH]; intros s HN Hi; [exact I|].
  rewrite fill_loop_step.
  assert (Hu : u32 (INBUFSIZ - insize s) = INBUFSIZ - insize s).
  { apply u32_small. unfold UINT_MOD, INT_MAX in *. lia. }
  rewrite Hu.
  destruct (read_buffer_spec (ifd (cfg s)) (Inbuf, insize s) s
              (cnt := INBUFSIZ - insize s))
    as (len & s1 & E & Hl & F); [lia|].
  rewrite E.
  destruct F as (Fc & Fi & Fp & Fo & Fbi & Fbo & _).
  destruct (len =? 0) eqn:E0; [repeat split; try congruence; lia|].
  destruct (len =? -1) eqn:E1.
  { rewrite read_error_eq. cbn. repeat split; try congruence; lia. }
  apply Z.eqb_neq in E0, E1.
  assert (Hu2 : u32 (insize s + len) = insize s + len).
  { apply u32_small. unfold UINT_MOD, INT_MAX in *. lia. }
  rewrite Hu2.
  destruct (insize s + len <? INBUFSIZ) eqn:E2.
  - apply Z.ltb_lt in E2.
    specialize (IH (set_insize (insize s + len) s1) HN).
    destruct (fill_loop k _) as [[] t|c t|]; try exact I;
      (destruct IH as (A & B & C & D & G);
       [cbn [insize set_insize]; lia|];
       cbn [insize bytes_in inptr bytes_out crc set_insize] in *;
       repeat split; try congruence; lia).
  - apply Z.ltb_ge in E2. cbn. repeat split; try congruence; lia.
Qed.

(** Whatever the input does, a [fill_inbuf] that returns has either
    returned [EOF] (acceptable, nothing buffered, [bytes_in] unchanged) or a
    byte value in 0..255 with between 1 and [INBUFSIZ] bytes buffered, the
    consume cursor at 1 and [bytes_in] grown by the number of bytes
    buffered.  The buffer is never overrun. *)
Theorem fill_inbuf_result_bounds (fuel : nat) (eof_ok : Z) (st : state) :
  0 < INBUFSIZ <= INT_MAX ->
  match fill_inbuf fuel eof_ok st with
  | Ret r t =>
      (r = EOF /\ eof_ok <> 0 /\ insize t = 0 /\ bytes_in t = bytes_in st) \/
      (0 <= r <= 255 /\ 1 <= insize t <= INBUFSIZ /\ inptr t = 1 /\
       bytes_in t = bytes_in st + insize t)
  | Exit _ _ => True
  | OutOfFuel => True
  end.
Proof.
  intros HN. rewrite fill_inbuf_eq.
  pose proof (@fill_loop_bound (S (Z.to_nat INBUFSIZ)) (set_insize 0 st) HN) as B.
  destruct (fill_loop _ (set_insize 0 st)) as [[] s1|c s1|]; try exact I.
  destruct B as (Bi & Bb & _); [cbn [insize set_insize]; lia|].
  cbn [insize bytes_in set_insize] in Bi, Bb.
  destruct (insize s1 =? 0) eqn:E0.
  - apply Z.eqb_eq in E0.
    destruct (eof_ok =? 0) eqn:Ee; cbn [negb].
    + destruct (flush_window fuel s1) as [[] s2|c s2|]; exact I.
    + apply Z.eqb_neq in Ee. left. repeat split; assumption.
  - apply Z.eqb_neq in E0. right.
    cbn [insize inptr bytes_in set_inptr set_bytes_in].
    split; [apply byte_to_Z_range|]. repeat split; lia.
Qed.

Lemma splice_firstn (off : nat) (data l : list byte) :
  (off <= List.length l)%nat ->
  firstn (off + List.length data) (splice off data l) = firstn off l ++ data.
Proof.
  intros Hle. unfold splice. rewrite app_assoc.
  rewrite firstn_app.
  rewrite length_app, length_firstn, Nat.min_l by assumption.
  rewrite Nat.sub_diag. cbn [firstn]. rewrite app_nil_r.
  apply firstn_all2. rewrite length_app, length_firstn, Nat.min_l by assumption.
  lia.
Qed.

Lemma firstn_length_self (n : nat) (l acc : list byte) :
  firstn n l = acc -> List.length acc = n -> (n <= List.length l)%nat.
Proof.
  intros H1 H2. rewrite <- H1, length_firstn in H2. lia.
Qed.

(** The chunks that the read loop absorbs lie in the input buffer one after
    the other. *)
Lemma absorb_chunks_inbuf (chunks : list (list byte)) :
  forall (s : state) (acc : list byte),
    0 <= insize s ->
    firstn (Z.to_nat (insize s)) (inbuf (mem s)) = acc ->
    List.length acc = Z.to_nat (insize s) ->
    firstn (Z.to_nat (insize (fold_left absorb chunks s)))
           (inbuf (mem (fold_left absorb chunks s))) =
    acc ++ concat chunks.
Proof.
  induction chunks as [|c cs IH]; intros s acc Hi Hacc Hlen.
  - cbn [fold_left concat]. rewrite app_nil_r. exact Hacc.
  - cbn [fold_left concat]. rewrite app_assoc.
    apply IH.
    + unfold absorb. cbn [insize set_insize]. lia.
    + unfold absorb. cbn [insize set_insize mem set_mem inbuf store fst snd
                            set_array array].
      rewrite Z2Nat.inj_add, Nat2Z.id by lia.
      rewrite splice_firstn by (eapply firstn_length_self; eassumption).
      now rewrite Hacc.
    + unfold absorb. cbn [insize set_insize].
      rewrite length_app, Hlen, Z2Nat.inj_add, Nat2Z.id by lia. reflexivity.
Qed.

Lemma absorb_chunks_bytes_in (chunks : list (list byte)) :
  forall s : state, bytes_in (fold_left absorb chunks s) = bytes_in s.
Proof.
  induction chunks as [|c cs IH]; intros s; [reflexivity|].
  cbn [fold_left]. rewrite IH. reflexivity.
Qed.

Lemma firstn_hd (n : nat) (l m : list byte) :
  firstn n l = m -> m <> [] -> nth 0 l x00 = hd x00 m.
Proof.
  intros H Hm. destruct n as [|n]; [cbn in H; congruence|].
  destruct l as [|b l]; [cbn in H; congruence|].
  cbn in H. subst m. reflexivity.
Qed.

(** Short reads are accumulated: when the input delivers the non-empty
    chunks [chunks], less than a buffer in all, and then ends,
    [fill_inbuf] returns the first byte delivered, with all the chunks in
    the buffer in order, the fill count and [bytes_in] telling their total
    length, and the consume cursor at 1. *)
Theorem fill_inbuf_accumulates_short_reads (fuel : nat) (eof_ok : Z)
    (st : state) (chunks : list (list byte)) :
  0 < INBUFSIZ <= INT_MAX ->
  w_in (os st) = map RdData chunks ->
  chunks <> [] ->
  Forall (fun c => c <> []) chunks ->
  total_length chunks < INBUFSIZ ->
  exists st',
    fill_inbuf fuel eof_ok st = Ret (byte_to_Z (hd x00 (concat chunks))) st' /\
    insize st' = total_length chunks /\ inptr st' = 1 /\
    bytes_in st' = bytes_in st + total_length chunks /\
    load (mem st') (Inbuf, 0) (total_length chunks) = concat chunks /\
    w_in (os st') = [].
Proof.
  intros HN Hin Hne Hall Ht.
  pose proof (length_le_concat Hall) as Hlen.
  assert (Hpos : 0 < total_length chunks).
  { destruct chunks; [congruence | cbn [List.length] in Hlen; lia]. }
  rewrite fill_inbuf_eq.
  replace (S (Z.to_nat INBUFSIZ))
    with (List.length chunks + S (Z.to_nat INBUFSIZ - List.length chunks))%nat
    by lia.
  assert (Hin' : w_in (os (set_insize 0 st)) = map RdData chunks ++ [])
    by (rewrite app_nil_r; exact Hin).
  assert (Hi0 : 0 <= insize (set_insize 0 st)) by apply Z.le_refl.
  assert (Hi1 : insize (set_insize 0 st) + total_length chunks < INBUFSIZ)
    by (cbn [insize set_insize]; lia).
  destruct (@fill_loop_chunks P chunks
              (S (Z.to_nat INBUFSIZ - List.length chunks))
              (set_insize 0 st) [] HN Hin' Hall Hi0 Hi1)
    as (E & Hw & Hs & Hcf).
  pose proof (@absorb_chunks_inbuf chunks (set_insize 0 st) [] Hi0
                eq_refl eq_refl) as Hbuf.
  pose proof (absorb_chunks_bytes_in chunks (set_insize 0 st)) as Hbi.
  rewrite E. clear E.
  set (t := fold_left absorb chunks (set_insize 0 st)) in *.
  cbn [insize set_insize] in Hs. rewrite Z.add_0_l in Hs.
  cbn [app] in Hbuf. cbn [bytes_in set_insize] in Hbi.
  rewrite fill_loop_step, read_buffer_eof by exact Hw.
  cbn [Z.eqb].
  replace (insize t =? 0) with false by (symmetry; apply Z.eqb_neq; lia).
  rewrite Hs in Hbuf.
  assert (Hcat : concat chunks <> []).
  { intros Hc. unfold total_length in Hpos. rewrite Hc in Hpos.
    cbn in Hpos. lia. }
  rewrite (firstn_hd _ _ Hbuf Hcat).
  eexists. split; [reflexivity|].
  cbn [insize inptr bytes_in mem os set_inptr set_bytes_in].
  rewrite Hs, Hbi.
  repeat split; try assumption.
Qed.

(** The loop stops when the buffer is full: from a chunk of at least
    [INBUFSIZ] bytes one refill takes exactly [INBUFSIZ], and the bytes it
    did not take stay ready for the next read. *)
Theorem fill_inbuf_stops_when_full (fuel : nat) (eof_ok : Z) (st : state)
    (big : list byte) (rest : list read_event) :
  0 < INBUFSIZ <= INT_MAX ->
  w_in (os st) = RdData big :: rest ->
  INBUFSIZ <= Z.of_nat (List.length big) ->
  exists st',
    fill_inbuf fuel eof_ok st = Ret (byte_to_Z (hd x00 big)) st' /\
    insize st' = INBUFSIZ /\ inptr st' = 1 /\
    bytes_in st' = bytes_in st + INBUFSIZ /\
    load (mem st') (Inbuf, 0) INBUFSIZ = firstn (Z.to_nat INBUFSIZ) big /\
    w_in (os st') =
      match skipn (Z.to_nat INBUFSIZ) big with
      | [] => rest
      | more => RdData more :: rest
      end.
Proof.
  intros HN Hin Hbig.
  rewrite fill_inbuf_eq, fill_loop_step.
  cbn [insize set_insize cfg]. rewrite Z.sub_0_r.
  assert (Hu : u32 INBUFSIZ = INBUFSIZ).
  { apply u32_small. unfold UINT_MOD, INT_MAX in *. lia. }
  rewrite Hu.
  unfold read_buffer. cbv zeta.
  replace (INT_MAX <? INBUFSIZ) with false by (symmetry; apply Z.ltb_ge; lia).
  unfold bind at 1. unfold sys_read at 1.
  cbn [os set_insize]. rewrite Hin. cbv zeta.
  rewrite Z.min_l by exact Hbig.
  unfold bind at 1, get at 1.
  replace (INBUFSIZ <? 0) with false by (symmetry; apply Z.ltb_ge; lia).
  cbn [andb]. unfold ret at 1.
  replace (INBUFSIZ =? 0) with false by (symmetry; apply Z.eqb_neq; lia).
  replace (INBUFSIZ =? -1) with false by (symmetry; apply Z.eqb_neq; lia).
  rewrite Z.add_0_l, Hu, Z.ltb_irrefl.
  cbn [insize set_insize Z.eqb].
  replace (INBUFSIZ =? 0) with false by (symmetry; apply Z.eqb_neq; lia).
  assert (Hn : (Z.to_nat INBUFSIZ <= List.length big)%nat) by lia.
  assert (Hne : firstn (Z.to_nat INBUFSIZ) big <> []).
  { intros Hc. apply (f_equal (@List.length byte)) in Hc.
    rewrite length_firstn, Nat.min_l in Hc by exact Hn. cbn in Hc. lia. }
  eexists. split.
  - f_equal. f_equal.
    cbn [mem set_mem set_bytes_in set_inptr set_insize set_os inbuf store
         fst snd set_array array].
    unfold splice. change (Z.to_nat 0) with O. cbn [firstn app Nat.add].
    destruct big as [|b big']; [cbn in Hbig; lia|].
    destruct (Z.to_nat INBUFSIZ) as [|n] eqn:En; [lia|]. reflexivity.
  - cbn [insize inptr bytes_in mem os set_inptr set_bytes_in set_insize
         set_mem set_os w_in set_w_in].
    repeat split.
    unfold load, store, splice.
    cbn [fst snd set_array array inbuf].
    change (Z.to_nat 0) with O. cbn [firstn skipn app Nat.add].
    rewrite firstn_app, length_firstn, Nat.min_l by exact Hn.
    rewrite Nat.sub_diag. cbn [firstn]. rewrite app_nil_r.
    apply firstn_all2. rewrite length_firstn. lia.
Qed.

(** An unexpected end of file does not lose output: with bytes pending in
    the window, [fill_inbuf] first flushes them (they reach the output and
    are counted) and only then ends the process with the diagnostic
    "unexpected end of file", whatever [errno] held. *)
Theorem fill_inbuf_flushes_before_exit (fuel : nat) (st : state) :
  w_in (os st) = [] ->
  test (cfg st) = 0 ->
  writer_progress (w_wr (os st)) ->
  pending_ok fuel st ->
  exists t,
    fill_inbuf fuel 0 st = Exit ERROR t /\
    w_out (os t) = w_out (os st) ++ load (mem st) (Window, 0) (outcnt st) /\
    bytes_out t = bytes_out st + outcnt st /\
    w_err (os t) =
      w_err (os st) ++
      [diagnostic (program_name (cfg st)) (ifname (cfg st))
         "unexpected end of file"].
Proof.
  intros Hin Ht Hw Hp.
  assert (Hloop : fill_loop (S (Z.to_nat INBUFSIZ)) (set_insize 0 st) =
                  Ret tt (set_insize 0 st)).
  { rewrite fill_loop_step, read_buffer_eof by exact Hin. reflexivity. }
  rewrite fill_inbuf_eq, Hloop. cbn [insize set_insize Z.eqb negb].
  destruct (@flush_window_progress P fuel (set_insize 0 st) Ht Hw Hp)
    as (s' & E & Ho & Hb & _ & _ & Hc & He).
  rewrite E. eexists. split; [reflexivity|].
  cbn [os printed set_os set_errno set_w_err w_out w_err bytes_out cfg].
  rewrite Ho, Hb, Hc, He. repeat split.
Qed.

End MoreFill.

(** ** File names with at most one dot *)

Lemma under_not_dot (b : byte) : Byte.eqb (under b) dot = false.
Proof.
  unfold under. destruct (Byte.eqb b dot) eqn:E; [reflexivity | exact E].
Qed.

Lemma poke_length (p : nat) (b : byte) (s : list byte) :
  List.length (poke p b s) = List.length s.
Proof.
  revert p. induction s as [|h t IH]; intros [|p]; cbn; congruence.
Qed.

Lemma poke_firstn (p : nat) (b : byte) (s : list byte) :
  firstn p (poke p b s) = firstn p s.
Proof.
  revert p. induction s as [|h t IH]; intros [|p]; cbn; congruence.
Qed.

Lemma poke_skipn (p : nat) (b : byte) (s : list byte) :
  (p < List.length s)%nat -> skipn p (poke p b s) = b :: skipn (S p) s.
Proof.
  revert p. induction s as [|h t IH]; intros [|p] H; cbn in *; try lia.
  - reflexivity.
  - apply IH. lia.
Qed.

Lemma poke_same (p : nat) (s : list byte) :
  poke p (nth p s x00) s = s.
Proof.
  revert p. induction s as [|h t IH]; intros [|p]; cbn; congruence.
Qed.

Lemma firstn_snoc (p : nat) (s : list byte) :
  (p < List.length s)%nat -> firstn (S p) s = firstn p s ++ [nth p s x00].
Proof.
  revert p. induction s as [|h t IH]; intros [|p] H; cbn in *; try lia.
  - reflexivity.
  - f_equal. apply IH. lia.
Qed.

Lemma make_simple_loop_S (q : nat) (name : list byte) :
  make_simple_loop (S q) name =
  make_simple_loop q (poke q (under (nth q name x00)) name).
Proof.
  cbn [make_simple_loop]. unfold under.
  destruct (Byte.eqb (nth q name x00) dot).
  - destruct q; reflexivity.
  - rewrite poke_same. destruct q; reflexivity.
Qed.

(** The loop entered at [p] turns the dots before [p] into underlines and
    leaves the name from [p] on as it is. *)
Lemma make_simple_loop_eq (p : nat) :
  forall name : list byte,
    (p <= List.length name)%nat ->
    make_simple_loop p name = map under (firstn p name) ++ skipn p name.
Proof.
  induction p as [|q IH]; intros name Hp; [reflexivity|].
  rewrite make_simple_loop_S, IH by (rewrite poke_length; lia).
  rewrite poke_firstn, poke_skipn, firstn_snoc by lia.
  rewrite map_app, <- app_assoc. reflexivity.
Qed.

Lemma strrchr_some (s : list byte) (c : byte) :
  forall p,
    strrchr s c = Some p ->
    (p < List.length s)%nat /\ nth p s x00 = c /\
    strrchr (skipn (S p) s) c = None.
Proof.
  induction s as [|b t IH]; intros p H; cbn in H; [discriminate|].
  destruct (strrchr t c) as [i|] eqn:E.
  - inversion H; subst p. destruct (IH i eq_refl) as (A & B & C).
    cbn. repeat split; [lia | exact B | exact C].
  - destruct (Byte.eqb b c) eqn:Eb; [|discriminate].
    inversion H; subst p. apply Byte.byte_dec_bl in Eb.
    cbn. repeat split; [lia | exact Eb | exact E].
Qed.

Lemma eqb_dot_sym (b : byte) : Byte.eqb dot b = Byte.eqb b dot.
Proof.
  destruct (Byte.eqb b dot) eqn:E.
  - apply Byte.byte_dec_bl in E. subst b. reflexivity.
  - destruct (Byte.eqb dot b) eqn:E'; [|reflexivity].
    apply Byte.byte_dec_bl in E'. subst b. discriminate.
Qed.

Lemma count_dots_cons (b : byte) (t : list byte) :
  count_dots (b :: t) =
  if Byte.eqb b dot then S (count_dots t) else count_dots t.
Proof.
  unfold count_dots. cbn [filter]. rewrite eqb_dot_sym.
  destruct (Byte.eqb b dot); reflexivity.
Qed.

Lemma strrchr_none_count (s : list byte) :
  strrchr s dot = None <-> count_dots s = 0%nat.
Proof.
  induction s as [|b t IH]; [split; reflexivity|].
  cbn [strrchr]. rewrite count_dots_cons.
  destruct (strrchr t dot) as [i|] eqn:E.
  - split; [discriminate|]. intros H.
    destruct (Byte.eqb b dot); [discriminate|].
    apply IH in H. discriminate.
  - destruct (Byte.eqb b dot); [split; discriminate|].
    split; [intros _; now apply IH | reflexivity].
Qed.

Lemma count_dots_app (a b : list byte) :
  count_dots (a ++ b) = (count_dots a + count_dots b)%nat.
Proof. unfold count_dots. now rewrite filter_app, length_app. Qed.

Lemma count_dots_under (s : list byte) : count_dots (map under s) = 0%nat.
Proof.
  induction s as [|b t IH]; [reflexivity|].
  cbn [map]. now rewrite count_dots_cons, under_not_dot.
Qed.

Lemma strrchr_app_last (a t : list byte) :
  strrchr t dot = None ->
  strrchr (a ++ dot :: t) dot = Some (List.length a).
Proof.
  intros Ht. induction a as [|b a IH]; cbn [app strrchr List.length].
  - rewrite Ht. reflexivity.
  - rewrite IH. reflexivity.
Qed.

Lemma strrchr_app_none (a t : list byte) :
  strrchr a dot = None -> strrchr t dot = None -> strrchr (a ++ t) dot = None.
Proof.
  intros Ha Ht. apply strrchr_none_count. rewrite count_dots_app.
  apply strrchr_none_count in Ha, Ht. lia.
Qed.

Lemma skipn_nth_cons (p : nat) (s : list byte) :
  (p < List.length s)%nat -> skipn p s = nth p s x00 :: skipn (S p) s.
Proof.
  revert p. induction s as [|h t IH]; intros [|p] H; cbn in *; try lia.
  - reflexivity.
  - apply IH. lia.
Qed.

(** What [make_simple_name] computes. *)
Lemma make_simple_name_eq (name : list byte) :
  make_simple_name name =
  match strrchr name dot with
  | None => name
  | Some O => map under (firstn 1 name) ++ skipn 1 name
  | Some (S p) => map under (firstn (S p) name) ++ dot :: skipn (S (S p)) name
  end.
Proof.
  unfold make_simple_name.
  destruct (strrchr name dot) as [[|p]|] eqn:E; [| |reflexivity].
  - destruct (strrchr_some _ _ E) as (A & _ & _).
    cbn [Nat.eqb]. apply make_simple_loop_eq. lia.
  - destruct (strrchr_some _ _ E) as (A & B & _).
    cbn [Nat.eqb]. rewrite make_simple_loop_eq by lia.
    rewrite (skipn_nth_cons _ A), B. reflexivity.
Qed.

Lemma under_rel_map (s : list byte) :
  Forall2 (fun a b => b = a \/ (a = dot /\ b = underline)) s (map under s).
Proof.
  induction s as [|h t IH]; cbn [map]; constructor; [|exact IH].
  unfold under. destruct (Byte.eqb h dot) eqn:E; [|now left].
  apply Byte.byte_dec_bl in E. now right.
Qed.

Lemma under_rel_refl (s : list byte) :
  Forall2 (fun a b => b = a \/ (a = dot /\ b = underline)) s s.
Proof. induction s; constructor; [now left | assumption]. Qed.

(** [make_simple_name] keeps the length of the name and changes nothing
    but dots, which it changes into underlines. *)
Theorem make_simple_name_only_dots (name : list byte) :
  List.length (make_simple_name name) = List.length name /\
  Forall2 (fun a b => b = a \/ (a = dot /\ b = underline))
          name (make_simple_name name).
Proof.
  assert (H : Forall2 (fun a b => b = a \/ (a = dot /\ b = underline))
                      name (make_simple_name name)).
  { rewrite make_simple_name_eq.
    destruct (strrchr name dot) as [[|p]|] eqn:E.
    - rewrite <- (firstn_skipn 1 name) at 1.
      apply Forall2_app; [apply under_rel_map | apply under_rel_refl].
    - destruct (strrchr_some _ _ E) as (A & B & _).
      assert (Hs : skipn (S p) name = dot :: skipn (S (S p)) name)
        by (rewrite (skipn_nth_cons _ A), B; reflexivity).
      rewrite <- Hs.
      rewrite <- (firstn_skipn (S p) name) at 1.
      apply Forall2_app; [apply under_rel_map | apply under_rel_refl].
    - apply under_rel_refl. }
  split; [symmetry; eapply Forall2_length; exact H | exact H].
Qed.

Lemma simple_form_legal (name : list byte) :
  let r := match strrchr name dot with
           | None => name
           | Some O => map under (firstn 1 name) ++ skipn 1 name
           | Some (S p) =>
               map under (firstn (S p) name) ++ dot :: skipn (S (S p)) name
           end in
  (count_dots r <= 1)%nat /\
  hd x00 r <> dot /\
  strrchr r dot =
  match strrchr name dot with
  | Some (S p) => Some (S p)
  | _ => None
  end.
Proof.
  cbv zeta.
  destruct (strrchr name dot) as [[|p]|] eqn:E.
  - destruct (strrchr_some _ _ E) as (A & B & C).
    destruct name as [|h t]; [cbn in A; lia|].
    cbn [firstn map app skipn] in *.
    assert (Ht : count_dots t = 0%nat) by now apply strrchr_none_count.
    assert (Hu : Byte.eqb (under h) dot = false) by apply under_not_dot.
    split; [|split].
    + rewrite count_dots_cons, Hu, Ht. lia.
    + cbn [hd]. intros Hd. rewrite Hd in Hu. discriminate.
    + cbn [strrchr]. rewrite C, Hu. reflexivity.
  - destruct (strrchr_some _ _ E) as (A & B & C).
    assert (Ht : count_dots (skipn (S (S p)) name) = 0%nat)
      by now apply strrchr_none_count.
    split; [|split].
    + rewrite count_dots_app, count_dots_under, count_dots_cons, Ht.
      cbn. lia.
    + destruct name as [|h t]; [cbn in A; lia|].
      cbn [firstn map app hd]. intros Hd.
      pose proof (under_not_dot h) as Hu. rewrite Hd in Hu. discriminate.
    + rewrite (@strrchr_app_last _ _ C), length_map, length_firstn.
      f_equal. lia.
  - assert (Hc : count_dots name = 0%nat) by now apply strrchr_none_count.
    split; [lia|]. split; [|exact E].
    destruct name as [|h t]; [discriminate|].
    cbn [hd]. intros Hd. subst h.
    rewrite count_dots_cons in Hc. cbn in Hc. discriminate.
Qed.

(** The result is legal: it has at most one dot and does not begin with a
    dot.  The last dot of the name is kept where it is, unless it is the
    first character, in which case no dot is left. *)
Theorem make_simple_name_legal (name : list byte) :
  (count_dots (make_simple_name name) <= 1)%nat /\
  hd x00 (make_simple_name name) <> dot /\
  strrchr (make_simple_name name) dot =
  match strrchr name dot with
  | Some (S p) => Some (S p)
  | _ => None
  end.
Proof.
  rewrite make_simple_name_eq. exact (simple_form_legal name).
Qed.

Lemma under_no_dots (s : list byte) :
  count_dots s = 0%nat -> map under s = s.
Proof.
  induction s as [|h t IH]; intros H; [reflexivity|].
  rewrite count_dots_cons in H. cbn [map]. unfold under at 1.
  destruct (Byte.eqb h dot); [discriminate|]. now rewrite IH.
Qed.

(** A name that is legal already (at most one dot, not at the start) is
    left as it is; so applying [make_simple_name] twice is applying it
    once. *)
Theorem make_simple_name_legal_unchanged (name : list byte) :
  ((count_dots name <= 1)%nat -> hd x00 name <> dot ->
   make_simple_name name = name) /\
  make_simple_name (make_simple_name name) = make_simple_name name.
Proof.
  assert (H : forall n, (count_dots n <= 1)%nat -> hd x00 n <> dot ->
                        make_simple_name n = n).
  { intros n Hc Hh. rewrite make_simple_name_eq.
    destruct (strrchr n dot) as [[|p]|] eqn:E; [| |reflexivity].
    - destruct (strrchr_some _ _ E) as (A & B & _).
      destruct n as [|h t]; [cbn in A; lia|]. cbn in B, Hh. congruence.
    - destruct (strrchr_some _ _ E) as (A & B & C).
      assert (Ht : count_dots (skipn (S (S p)) n) = 0%nat)
        by now apply strrchr_none_count.
      rewrite <- (firstn_skipn (S p) n) in Hc.
      rewrite (skipn_nth_cons _ A), B in Hc.
      rewrite count_dots_app, count_dots_cons, Ht in Hc.
      change (Byte.eqb dot dot) with true in Hc. cbv iota in Hc.
      rewrite under_no_dots by lia.
      assert (Hs : skipn (S p) n = dot :: skipn (S (S p)) n)
        by (rewrite (skipn_nth_cons _ A), B; reflexivity).
      rewrite <- Hs. apply firstn_skipn. }
  split; [apply H|].
  pose proof (simple_form_legal name) as L. cbv zeta in L.
  rewrite <- make_simple_name_eq in L. destruct L as (Hc & Hh & _).
  now apply H.
Qed.

(** ** Options from the environment *)

Example add_envopt_example :
  add_envopt 3 [bytes "gzip"; bytes "-d"; bytes "f"]
             (Some (bytes "  -9  --best -v ")) =
  (Some (bytes "  -9" ++ [x00] ++ bytes " --best" ++ [x00] ++ bytes "-v" ++
         [x00; x00]),
   4, [bytes "gzip"; bytes "-9"; bytes "--best"; bytes "-v"]).
Proof. vm_compute. reflexivity. Qed.

Lemma nth_app_here (pre X : list byte) (b : byte) :
  nth (List.length pre) (pre ++ b :: X) x00 = b.
Proof. rewrite app_nth2, Nat.sub_diag by lia. reflexivity. Qed.

Lemma nth_app_end (pre : list byte) : nth (List.length pre) pre x00 = x00.
Proof. apply nth_overflow. lia. Qed.

Lemma skipn_app_here (pre X : list byte) :
  skipn (List.length pre) (pre ++ X) = X.
Proof. rewrite skipn_app, skipn_all, Nat.sub_diag. reflexivity. Qed.

Lemma poke_app_here (pre X : list byte) (b c : byte) :
  poke (List.length pre) c (pre ++ b :: X) = pre ++ c :: X.
Proof. induction pre as [|h t IH]; cbn; congruence. Qed.

Lemma span_all (f : byte -> bool) (a X : list byte) :
  Forall (fun b => f b = true) a ->
  match X with [] => True | c :: _ => f c = false end ->
  span f (a ++ X) = List.length a.
Proof.
  intros Ha HX. induction Ha as [|b a Hb Ha IH]; cbn [app span List.length].
  - destruct X as [|c X]; [reflexivity|]. cbn [span]. now rewrite HX.
  - now rewrite Hb, IH.
Qed.

Lemma span_split (f : byte -> bool) (s : list byte) :
  exists a r,
    s = a ++ r /\ Forall (fun b => f b = true) a /\
    match r with [] => True | c :: _ => f c = false end.
Proof.
  induction s as [|b t (a & r & E & Ha & Hr)].
  - exists [], []. repeat split. constructor.
  - destruct (f b) eqn:Eb.
    + exists (b :: a), r. subst t. repeat split; [|exact Hr].
      constructor; assumption.
    + exists [], (b :: t). repeat split; [constructor | exact Eb].
Qed.

Lemma envopt_mark_at_nul (fuel : nat) (pre tail : list byte) (n : nat) :
  envopt_mark (S fuel) (pre ++ x00 :: tail) (List.length pre) n =
  (pre ++ x00 :: tail, n).
Proof. cbn [envopt_mark]. rewrite nth_app_here. reflexivity. Qed.

Lemma Split_sep_cons (c : byte) (r : list byte) (ws : list (list byte)) :
  is_sep c = true -> Split r ws -> Split (c :: r) ws.
Proof.
  intros Hc H. destruct H as [s Hs | seps w rest ws Hseps Hw Hns Hrest Hsp].
  - apply Split_nil. constructor; assumption.
  - change (c :: seps ++ w ++ rest) with ((c :: seps) ++ w ++ rest).
    apply Split_word; try assumption. constructor; assumption.
Qed.

Lemma sep_not_nul (b : byte) : is_sep b = true -> is_nul b = false.
Proof.
  unfold is_sep, is_nul. intros H.
  destruct (Byte.eqb b x00) eqn:E; [|reflexivity].
  apply Byte.byte_dec_bl in E. subst b. discriminate.
Qed.

Lemma word_char (b : byte) :
  negb (is_sep b || is_nul b) = true -> is_sep b = false /\ is_nul b = false.
Proof. destruct (is_sep b), (is_nul b); cbn; intuition discriminate. Qed.

Lemma strspn_sep_here (pre seps X : list byte) :
  Forall (fun b => is_sep b = true) seps ->
  match X with [] => True | c :: _ => is_sep c = false end ->
  strspn_sep (pre ++ seps ++ X) (List.length pre) = List.length seps.
Proof.
  intros Hs HX. unfold strspn_sep. rewrite skipn_app_here.
  now apply span_all.
Qed.

(** One step of the second loop at a word that a NUL ends. *)
Lemma collect_word (pre seps w X : list byte) (n : nat) :
  Forall (fun b => is_sep b = true) seps ->
  w <> [] ->
  Forall (fun b => is_sep b = false) w ->
  Forall (fun b => is_nul b = false) w ->
  envopt_collect (S n) (pre ++ seps ++ w ++ x00 :: X) (List.length pre) =
  List.length (pre ++ seps) ::
  envopt_collect n (pre ++ seps ++ w ++ x00 :: X)
    (List.length (pre ++ seps ++ w ++ [x00])) /\
  cstr (pre ++ seps ++ w ++ x00 :: X) (List.length (pre ++ seps)) = w.
Proof.
  intros Hs Hw Hns Hnn.
  assert (Hsp : strspn_sep (pre ++ seps ++ w ++ x00 :: X) (List.length pre) =
                List.length seps).
  { apply strspn_sep_here; [exact Hs|].
    destruct w as [|c w']; [congruence|]. cbn [app].
    now inversion Hns. }
  assert (Hlen : strlen (pre ++ seps ++ w ++ x00 :: X)
                   (List.length (pre ++ seps)) = List.length w).
  { unfold strlen. rewrite app_assoc, skipn_app_here.
    apply span_all; [|reflexivity].
    eapply Forall_impl; [|exact Hnn]. cbv beta. intros b Hb. now rewrite Hb. }
  split.
  - cbn [envopt_collect]. rewrite Hsp. rewrite <- length_app.
    rewrite Hlen. f_equal. f_equal.
    rewrite !length_app. cbn [List.length]. lia.
  - unfold cstr. rewrite Hlen. rewrite app_assoc, skipn_app_here.
    rewrite firstn_app, firstn_all, Nat.sub_diag. cbn [firstn].
    apply app_nil_r.
Qed.

Lemma envopt_mark_spec (n : nat) :
  forall s : list byte,
    (List.length s <= n)%nat ->
    Forall (fun b => is_nul b = false) s ->
    forall (pre tail : list byte) (fuel cnt : nat),
      (List.length s < fuel)%nat ->
      exists s' ws,
        envopt_mark fuel (pre ++ s ++ x00 :: tail) (List.length pre) cnt =
        (pre ++ s' ++ x00 :: tail, (cnt + List.length ws)%nat) /\
        List.length s' = List.length s /\ Split s ws /\ Collects s' ws.
Proof.
  induction n as [|n IH]; intros s Hn Hnul pre tail fuel cnt Hf.
  - destruct s; [|cbn in Hn; lia]. destruct fuel as [|fuel]; [cbn in Hf; lia|].
    exists [], []. cbn [app]. rewrite envopt_mark_at_nul.
    split; [apply f_equal2; [reflexivity | cbn; lia]|]. split; [reflexivity|].
    split; [apply Split_nil; constructor | intros ? ?; reflexivity].
  - destruct fuel as [|fuel]; [lia|].
    destruct s as [|b0 s0].
    { exists [], []. cbn [app]. rewrite envopt_mark_at_nul.
      split; [apply f_equal2; [reflexivity | cbn; lia]|]. split; [reflexivity|].
      split; [apply Split_nil; constructor | intros ? ?; reflexivity]. }
    set (s := b0 :: s0) in *.
    assert (Hb0 : is_nul b0 = false) by now inversion Hnul.
    destruct (span_split is_sep s) as (seps & r & E & Hseps & Hr).
    cbn [envopt_mark].
    replace (nth (List.length pre) (pre ++ s ++ x00 :: tail) x00) with b0
      by (subst s; cbn [app]; now rewrite nth_app_here).
    rewrite Hb0.
    assert (Hsp : strspn_sep (pre ++ s ++ x00 :: tail) (List.length pre) =
                  List.length seps).
    { rewrite E, <- app_assoc. apply strspn_sep_here; [exact Hseps|].
      destruct r as [|c r']; [reflexivity | exact Hr]. }
    rewrite Hsp. rewrite <- !length_app.
    destruct r as [|c r'].
    + (* only separators are left *)
      rewrite app_nil_r in E.
      replace (nth (List.length (pre ++ seps)) (pre ++ s ++ x00 :: tail) x00)
        with x00 by (rewrite E, app_assoc; now rewrite nth_app_here).
      cbn [is_nul Byte.eqb]. change (is_nul x00) with true. cbv iota.
      exists s, []. split; [apply f_equal2; [reflexivity | cbn; lia]|]. split; [reflexivity|].
      split; [apply Split_nil; now rewrite E | intros ? ?; reflexivity].
    + (* a word starts at [c] *)
      assert (Hnr : Forall (fun b => is_nul b = false) (c :: r')).
      { rewrite E in Hnul. now apply Forall_app in Hnul. }
      assert (Hc : is_nul c = false) by now inversion Hnr.
      replace (nth (List.length (pre ++ seps)) (pre ++ s ++ x00 :: tail) x00)
        with c
        by (rewrite E, <- app_assoc, app_assoc; cbn [app];
            now rewrite nth_app_here).
      rewrite Hc.
      destruct (span_split (fun b => negb (is_sep b || is_nul b)) (c :: r'))
        as (w & r2 & Ew & Hw & Hr2).
      assert (Hwne : w <> []).
      { intros ->. cbn [app] in Ew. subst r2. rewrite Hr, Hc in Hr2.
        discriminate. }
      assert (Hwns : Forall (fun b => is_sep b = false) w).
      { eapply Forall_impl; [|exact Hw]. cbv beta. intros b Hb.
        now apply word_char in Hb. }
      assert (Hwnn : Forall (fun b => is_nul b = false) w).
      { eapply Forall_impl; [|exact Hw]. cbv beta. intros b Hb.
        now apply word_char in Hb. }
      assert (Es : s = seps ++ w ++ r2) by (rewrite E, Ew; reflexivity).
      assert (Hcs : strcspn_sep (pre ++ s ++ x00 :: tail)
                      (List.length (pre ++ seps)) = List.length w).
      { unfold strcspn_sep. rewrite Es.
        replace (pre ++ (seps ++ w ++ r2) ++ x00 :: tail)
          with ((pre ++ seps) ++ w ++ r2 ++ x00 :: tail)
          by (now rewrite <- !app_assoc).
        rewrite skipn_app_here. apply span_all; [exact Hw|].
        destruct r2 as [|d r3]; [reflexivity | exact Hr2]. }
      rewrite Hcs. rewrite <- !length_app.
      destruct r2 as [|d r3].
      * (* the word ends the string *)
        rewrite app_nil_r in Es.
        replace (pre ++ s ++ x00 :: tail)
          with (((pre ++ seps) ++ w) ++ x00 :: tail)
          by (rewrite Es; now rewrite <- !app_assoc).
        rewrite nth_app_here. change (is_nul x00) with true. cbv iota.
        destruct fuel as [|fuel].
        { subst s. cbn [List.length] in Hf. lia. }
        rewrite envopt_mark_at_nul.
        exists s, [w]. split.
        { apply f_equal2; [rewrite Es; now rewrite <- !app_assoc | cbn; lia]. }
        split; [reflexivity|]. split.
        { rewrite Es. rewrite <- (app_nil_r w) at 1.
          apply Split_word;
            [exact Hseps | exact Hwne | exact Hwns | exact I
            | apply Split_nil; constructor]. }
        { intros pre0 tail0. rewrite Es, <- app_assoc.
          destruct (@collect_word pre0 seps w tail0 0 Hseps Hwne Hwns Hwnn)
            as (C1 & C2).
          cbn [List.length]. rewrite C1. cbn [envopt_collect map].
          now rewrite C2. }
      * (* a separator follows the word: it becomes a NUL *)
        assert (Hd : is_sep d = true).
        { assert (Hdn : is_nul d = false).
          { rewrite Ew in Hnr. apply Forall_app in Hnr.
            destruct Hnr as (_ & Hnr). now inversion Hnr. }
          rewrite Hdn in Hr2. destruct (is_sep d); [reflexivity|].
          discriminate. }
        assert (Hdn : is_nul d = false) by now apply sep_not_nul.
        replace (pre ++ s ++ x00 :: tail)
          with (((pre ++ seps) ++ w) ++ d :: r3 ++ x00 :: tail)
          by (rewrite Es; now rewrite <- !app_assoc).
        rewrite nth_app_here, Hdn. cbn [negb].
        rewrite poke_app_here.
        assert (Hn3 : Forall (fun b => is_nul b = false) r3).
        { rewrite Ew in Hnr. apply Forall_app in Hnr.
          destruct Hnr as (_ & Hnr). now inversion Hnr. }
        assert (Hl3 : (List.length r3 < List.length s)%nat).
        { rewrite Es, !length_app. cbn [List.length]. lia. }
        destruct (IH r3 ltac:(subst s; cbn [List.length] in *; lia) Hn3
                    (((pre ++ seps) ++ w) ++ [x00]) tail fuel (S cnt)
                    ltac:(lia))
          as (s3 & ws3 & Em & Hls & Hsp3 & Hco3).
        replace (S (List.length ((pre ++ seps) ++ w)))
          with (List.length ((((pre ++ seps) ++ w) ++ [x00])))
          by (rewrite (length_app _ [x00]); cbn [List.length]; lia).
        replace (((pre ++ seps) ++ w) ++ x00 :: r3 ++ x00 :: tail)
          with ((((pre ++ seps) ++ w) ++ [x00]) ++ r3 ++ x00 :: tail)
          by (now rewrite <- !app_assoc).
        rewrite Em.
        exists (seps ++ w ++ x00 :: s3), (w :: ws3). split.
        { apply f_equal2; [now rewrite <- !app_assoc | cbn [List.length]; lia]. }
        split.
        { rewrite Es. repeat (rewrite length_app; cbn [List.length]). lia. }
        split.
        { rewrite Es.
          apply Split_word;
            [exact Hseps | exact Hwne | exact Hwns | exact Hd
            | now apply Split_sep_cons]. }
        { intros pre0 tail0.
          replace (pre0 ++ (seps ++ w ++ x00 :: s3) ++ x00 :: tail0)
            with (pre0 ++ seps ++ w ++ x00 :: (s3 ++ x00 :: tail0))
            by (now rewrite <- !app_assoc).
          destruct (@collect_word pre0 seps w (s3 ++ x00 :: tail0)
                      (List.length ws3) Hseps Hwne Hwns Hwnn) as (C1 & C2).
          cbn [List.length]. rewrite C1. cbn [map]. rewrite C2. f_equal.
          replace (pre0 ++ seps ++ w ++ x00 :: s3 ++ x00 :: tail0)
            with ((pre0 ++ seps ++ w ++ [x00]) ++ s3 ++ x00 :: tail0)
            by (now rewrite <- !app_assoc).
          apply Hco3. }
Qed.

Lemma length_snoc_nul (v : list byte) :
  List.length (v ++ [x00]) = S (List.length v).
Proof. rewrite length_app. cbn [List.length]. lia. Qed.

(** [add_envopt] on a value: the arguments are the words of the value. *)
Lemma add_envopt_value (argc : Z) (argv : list (list byte)) (v : list byte) :
  Forall (fun b => is_nul b = false) v ->
  exists storage ws,
    Split v ws /\ List.length storage = S (List.length v) /\
    add_envopt argc argv (Some v) =
    match ws with
    | [] => (None, argc, argv)
    | _ => (Some storage, Z.of_nat (List.length ws) + 1, hd [] argv :: ws)
    end.
Proof.
  intros Hv. unfold add_envopt.
  destruct (@envopt_mark_spec (List.length v) v (le_n _) Hv [] []
              (List.length (v ++ [x00])) O) as (s' & ws & E & Hl & Hs & Hc).
  { rewrite length_snoc_nul. lia. }
  cbn [app List.length Nat.add] in E. rewrite E.
  exists (s' ++ [x00]), ws. split; [exact Hs|].
  split; [rewrite length_snoc_nul; congruence|].
  destruct ws as [|w ws']; [reflexivity|].
  cbn [List.length Nat.eqb]. specialize (Hc [] []).
  cbn [app List.length] in Hc. rewrite Hc. reflexivity.
Qed.

Lemma filter_nonsep_seps (s : list byte) :
  Forall (fun b => is_sep b = true) s ->
  filter (fun b => negb (is_sep b)) s = [].
Proof.
  induction 1 as [|b s Hb Hs IH]; [reflexivity|].
  cbn [filter]. cbv beta. rewrite Hb. exact IH.
Qed.

Lemma filter_nonsep_word (s : list byte) :
  Forall (fun b => is_sep b = false) s ->
  filter (fun b => negb (is_sep b)) s = s.
Proof.
  induction 1 as [|b s Hb Hs IH]; [reflexivity|].
  cbn [filter]. cbv beta. rewrite Hb. cbn [negb]. now rewrite IH.
Qed.

Lemma Split_words_ok (s : list byte) (ws : list (list byte)) :
  Split s ws ->
  Forall (fun w => w <> [] /\ Forall (fun b => is_sep b = false) w) ws /\
  concat ws = filter (fun b => negb (is_sep b)) s.
Proof.
  induction 1 as [s Hs | seps w rest ws Hseps Hw Hns Hrest Hsp (IH1 & IH2)].
  - split; [constructor|]. now rewrite filter_nonsep_seps.
  - split; [constructor; [split; assumption | exact IH1]|].
    cbn [concat]. rewrite !filter_app, IH2.
    rewrite (filter_nonsep_seps Hseps), (filter_nonsep_word Hns).
    reflexivity.
Qed.

Lemma Split_blank (s : list byte) (ws : list (list byte)) :
  Forall (fun b => is_sep b = true) s -> Split s ws -> ws = [].
Proof.
  intros Hs H. destruct H as [|seps w rest ws _ Hw Hns _ _]; [reflexivity|].
  apply Forall_app in Hs. destruct Hs as (_ & Hs).
  apply Forall_app in Hs. destruct Hs as (Hs & _).
  destruct w as [|b w]; [congruence|].
  inversion Hs; inversion Hns; subst. congruence.
Qed.

(** The options that [add_envopt] takes from the environment are the
    words of the value: the maximal runs of characters other than space
    and tab, in order.  The new vector is the old [argv[0]] followed by
    these words (the other old arguments are not copied) and the new count
    is their number plus one; every word is non-empty and free of
    separators, and together they are the value without its separators. *)
Theorem add_envopt_takes_words (argc : Z) (argv : list (list byte))
    (v : list byte) :
  Forall (fun b => is_nul b = false) v ->
  Exists (fun b => is_sep b = false) v ->
  exists storage w ws,
    add_envopt argc argv (Some v) =
    (Some storage, Z.of_nat (List.length (w :: ws)) + 1,
     hd [] argv :: w :: ws) /\
    Split v (w :: ws) /\
    Forall (fun x => x <> [] /\ Forall (fun b => is_sep b = false) x)
           (w :: ws) /\
    concat (w :: ws) = filter (fun b => negb (is_sep b)) v /\
    List.length storage = S (List.length v).
Proof.
  intros Hv Hex.
  destruct (add_envopt_value argc argv Hv) as (storage & ws & Hs & Hl & E).
  destruct (Split_words_ok Hs) as (Hok & Hcat).
  destruct ws as [|w ws].
  - exfalso. cbn [concat] in Hcat.
    apply Exists_exists in Hex. destruct Hex as (b & Hin & Hb).
    assert (Hf : In b (filter (fun b => negb (is_sep b)) v)).
    { apply filter_In. split; [exact Hin | now rewrite Hb]. }
    rewrite <- Hcat in Hf. exact Hf.
  - exists storage, w, ws. repeat split; assumption.
Qed.

(** Without the variable, or with a value of separators only,
    [add_envopt] returns NULL and leaves the count and the vector as they
    are. *)
Theorem add_envopt_nothing_to_add (argc : Z) (argv : list (list byte))
    (v : list byte) :
  Forall (fun b => is_sep b = true) v ->
  add_envopt argc argv None = (None, argc, argv) /\
  add_envopt argc argv (Some v) = (None, argc, argv).
Proof.
  intros Hv. split; [reflexivity|].
  assert (Hn : Forall (fun b => is_nul b = false) v).
  { eapply Forall_impl; [|exact Hv]. exact sep_not_nul. }
  destruct (add_envopt_value argc argv Hn) as (storage & ws & Hs & _ & E).
  rewrite E, (Split_blank Hv Hs). reflexivity.
Qed.

Section MoreFill2.
Context {P : Platform}.

(** [fill_inbuf] always ends, unless the write loop of its last flush does
    not: it ends whenever end of file is acceptable, or test mode is on, or
    nothing is pending in the window. *)
Theorem fill_inbuf_terminates (fuel : nat) (eof_ok : Z) (st : state) :
  0 < INBUFSIZ <= INT_MAX ->
  eof_ok <> 0 \/ test (cfg st) <> 0 \/ outcnt st = 0 ->
  terminates (fill_inbuf fuel eof_ok st).
Proof.
  intros HN Hcase. rewrite fill_inbuf_eq.
  pose proof (fill_inbuf_loop_terminates st HN) as Hterm.
  pose proof (@fill_loop_quiet P (S (Z.to_nat INBUFSIZ)) (set_insize 0 st) HN)
    as Hq.
  destruct (fill_loop _ (set_insize 0 st)) as [[] s1|c s1|];
    [| exact I | contradiction].
  destruct Hq as ((Qc & _) & Qo); [cbn [insize set_insize]; lia|].
  cbn [cfg outcnt set_insize] in Qc, Qo.
  destruct (insize s1 =? 0); [|exact I].
  destruct (eof_ok =? 0) eqn:Ee; cbn [negb]; [|exact I].
  apply Z.eqb_eq in Ee.
  destruct Hcase as [He | [Ht | Ho]]; [congruence | |].
  - rewrite flush_window_eq. destruct (outcnt s1 =? 0); [exact I|].
    rewrite write_buf_test by (cbn [cfg set_crc]; congruence). exact I.
  - rewrite flush_window_eq. rewrite Qo, Ho. exact I.
Qed.

End MoreFill2.

(** * The further properties at concrete inputs *)


Lemma write_buf_uint_max_hides_failure_witness :
  write_buf (P := linux) 1 1 (Outbuf, 0) (UINT_MOD - 1) st_wfail =
  Ret tt (write_failed 28
            (set_bytes_out (bytes_out st_wfail + (UINT_MOD - 1)) st_wfail)).
Proof.
  exact (@write_buf_uint_max_hides_failure linux 0 1 (Outbuf, 0) 28 st_wfail
           eq_refl eq_refl).
Defined.

Lemma write_loop_stalls_witness :
  write_loop (P := linux) 1000 1 (Outbuf, 0) 3 st_stalled = OutOfFuel.
Proof.
  refine (@write_loop_stalls linux 1000 1 (Outbuf, 0) 3 st_stalled _ _).
  - intros k. reflexivity.
  - unfold UINT_MOD. lia.
Defined.

(** The write of the window fails: the register and the counter hold the
    three bytes all the same. *)
Lemma flush_window_checksum_before_write_witness :
  exists c s',
    flush_window (P := linux) 4 st_window_wfail = Exit c s' /\
    crc s' = crc32_update 0 (bytes "ban") /\ bytes_out s' = 3 /\
    outcnt s' = 3.
Proof.
  assert (H : outcnt st_window_wfail <> 0) by (cbn; discriminate).
  pose proof (@flush_window_checksum_before_write linux 4 st_window_wfail H)
    as W.
  destruct (flush_window 4 st_window_wfail) as [[] s'|c s'|] eqn:E;
    [vm_compute in E; discriminate | | vm_compute in E; discriminate].
  exists c, s'. split; [reflexivity | exact W].
Defined.

Lemma flush_window_delivers_witness :
  exists s',
    flush_window (P := linux) 4 st_window = Ret tt s' /\
    w_out (os s') =
      w_out (os st_window) ++
      load (mem st_window) (Window, 0) (outcnt st_window) /\
    bytes_out s' = bytes_out st_window + outcnt st_window /\
    outcnt s' = 0 /\ mem s' = mem st_window.
Proof.
  refine (@flush_window_delivers linux 4 st_window eq_refl
            one_byte_writer_progress _).
  unfold pending_ok, UINT_MOD. cbn. lia.
Defined.

Lemma read_buffer_result_range_witness :
  exists len s',
    read_buffer (P := linux) 0 (Inbuf, 0) 1 st_hi = Ret len s' /\
    -1 <= len <= 1 /\ len <= INT_MAX /\ io_frame st_hi s'.
Proof.
  refine (@read_buffer_result_range linux 0 (Inbuf, 0) 1 st_hi _). lia.
Defined.

(** EAGAIN on a descriptor opened O_NONBLOCK: the flag is cleared and the
    second read delivers "ok". *)
Lemma read_buffer_retries_once_witness :
  read_buffer (P := linux) 0 (Inbuf, 0) 8 (st_eagain 0x800) =
  sys_read 0 (Inbuf, 0) (if INT_MAX <? 8 then INT_MAX else 8)
    (set_os (set_w_getfl (SysOk (Z.land 0x800 (Z.lnot (@O_NONBLOCK linux))))
               (set_w_in [RdData (bytes "ok")] (os (st_eagain 0x800))))
       (set_errno (@EAGAIN linux) (st_eagain 0x800))).
Proof.
  refine (@read_buffer_retries_once linux 0 (Inbuf, 0) 8 0x800 0
            [RdData (bytes "ok")] (st_eagain 0x800) eq_refl eq_refl _ _
            eq_refl _).
  - lia.
  - vm_compute. discriminate.
  - lia.
Defined.

Example read_buffer_retry_delivers :
  exists s',
    read_buffer (P := linux) 0 (Inbuf, 0) 8 (st_eagain 0x800) = Ret 2 s' /\
    w_getfl (os s') = SysOk 0 /\ load (mem s') (Inbuf, 0) 2 = bytes "ok".
Proof. eexists. vm_compute. repeat split. Qed.

(** EAGAIN on a descriptor that is not O_NONBLOCK: -1, and "ok" is still
    unread. *)
Lemma read_buffer_no_retry_witness :
  read_buffer (P := linux) 0 (Inbuf, 0) 8 (st_eagain 0) =
  Ret (-1)
      (set_errno 11
         (set_os (set_w_in [RdData (bytes "ok")] (os (st_eagain 0)))
            (st_eagain 0))).
Proof.
  refine (@read_buffer_no_retry linux 0 (Inbuf, 0) 8 11 0
            [RdData (bytes "ok")] (st_eagain 0) eq_refl _).
  right. repeat split. lia.
Defined.

Lemma fill_inbuf_result_bounds_witness :
  match fill_inbuf (P := linux) 1 1 st_hi with
  | Ret r t =>
      (r = EOF /\ 1 <> 0 /\ insize t = 0 /\ bytes_in t = bytes_in st_hi) \/
      (0 <= r <= 255 /\ 1 <= insize t <= @INBUFSIZ linux /\ inptr t = 1 /\
       bytes_in t = bytes_in st_hi + insize t)
  | Exit _ _ => True
  | OutOfFuel => True
  end.
Proof.
  exact (@fill_inbuf_result_bounds linux 1 1 st_hi linux_INBUFSIZ_ok).
Defined.

Lemma fill_inbuf_terminates_witness :
  terminates (fill_inbuf (P := linux) 0 0 st_hi).
Proof.
  refine (@fill_inbuf_terminates linux 0 0 st_hi linux_INBUFSIZ_ok _).
  right. right. reflexivity.
Defined.

(** "ab" and "c" in two reads: the buffer holds "abc". *)
Lemma fill_inbuf_accumulates_short_reads_witness :
  exists st',
    fill_inbuf (P := linux) 1 0 st_short_reads =
    Ret (byte_to_Z (hd x00 (concat [bytes "ab"; bytes "c"]))) st' /\
    insize st' = total_length [bytes "ab"; bytes "c"] /\ inptr st' = 1 /\
    bytes_in st' =
      bytes_in st_short_reads + total_length [bytes "ab"; bytes "c"] /\
    load (mem st') (Inbuf, 0) (total_length [bytes "ab"; bytes "c"]) =
      concat [bytes "ab"; bytes "c"] /\
    w_in (os st') = [].
Proof.
  refine (@fill_inbuf_accumulates_short_reads linux 1 0 st_short_reads
            [bytes "ab"; bytes "c"] linux_INBUFSIZ_ok eq_refl _ _ _).
  - discriminate.
  - repeat constructor; discriminate.
  - vm_compute. reflexivity.
Defined.

(** Six bytes ready, a buffer of four: "abcd" is taken, "ef" stays. *)
Lemma fill_inbuf_stops_when_full_witness :
  exists st',
    fill_inbuf (P := tiny) 1 0 st_six =
    Ret (byte_to_Z (hd x00 (bytes "abcdef"))) st' /\
    insize st' = @INBUFSIZ tiny /\ inptr st' = 1 /\
    bytes_in st' = bytes_in st_six + @INBUFSIZ tiny /\
    load (mem st') (Inbuf, 0) (@INBUFSIZ tiny) =
      firstn (Z.to_nat (@INBUFSIZ tiny)) (bytes "abcdef") /\
    w_in (os st') =
      match skipn (Z.to_nat (@INBUFSIZ tiny)) (bytes "abcdef") with
      | [] => []
      | more => [RdData more]
      end.
Proof.
  refine (@fill_inbuf_stops_when_full tiny 1 0 st_six (bytes "abcdef") []
            _ eq_refl _).
  - cbn [INBUFSIZ tiny]. unfold INT_MAX. lia.
  - vm_compute. discriminate.
Defined.

(** Three bytes pending, unexpected end of file: "ban" is written before
    the process ends, and the message does not show the stale [errno]. *)
Lemma fill_inbuf_flushes_before_exit_witness :
  exists t,
    fill_inbuf (P := linux) 4 0 st_window = Exit ERROR t /\
    w_out (os t) =
      w_out (os st_window) ++
      load (mem st_window) (Window, 0) (outcnt st_window) /\
    bytes_out t = bytes_out st_window + outcnt st_window /\
    w_err (os t) =
      w_err (os st_window) ++
      [diagnostic (program_name (cfg st_window)) (ifname (cfg st_window))
         "unexpected end of file"].
Proof.
  refine (@fill_inbuf_flushes_before_exit linux 4 st_window eq_refl eq_refl
            one_byte_writer_progress _).
  unfold pending_ok, UINT_MOD. cbn. lia.
Defined.

Lemma copy_nothing_unread_witness :
  copy (P := linux) 1 0 1 st_hi = Ret OK (set_errno 0 st_hi).
Proof.
  refine (@copy_nothing_unread linux 0 0 1 st_hi _). cbn. lia.
Defined.

Lemma fill_inbuf_exhausted_witness :
  fill_inbuf (P := linux) 1 1 st_banana = Ret EOF (set_insize 0 st_banana) /\
  fill_inbuf (P := linux) 1 0 (set_errno 5 st_banana) =
  Exit ERROR
    (printed (diagnostic "gzip" "in.gz" "unexpected end of file")
       (set_errno 0 (set_insize 0 (set_errno 5 st_banana)))).
Proof.
  split.
  - refine (proj1 (@fill_inbuf_exhausted linux 1 1 st_banana eq_refl) _).
    discriminate.
  - exact (proj2 (@fill_inbuf_exhausted linux 1 0 (set_errno 5 st_banana)
                    eq_refl) eq_refl eq_refl).
Defined.

(** ".tar.gz" has a leading dot and two more; "a.b" is legal. *)
Example make_simple_name_examples :
  make_simple_name (bytes ".tar.gz") = bytes "_tar.gz" /\
  make_simple_name (bytes "a.b.c") = bytes "a_b.c" /\
  make_simple_name (bytes ".profile") = bytes "_profile" /\
  make_simple_name (bytes "a.b") = bytes "a.b".
Proof. repeat split; reflexivity. Qed.

Lemma make_simple_name_legal_unchanged_witness :
  make_simple_name (bytes "a.b") = bytes "a.b".
Proof.
  refine (proj1 (make_simple_name_legal_unchanged (bytes "a.b")) _ _).
  - vm_compute. lia.
  - vm_compute. discriminate.
Defined.

Lemma add_envopt_takes_words_witness :
  exists storage w ws,
    add_envopt 3 [bytes "gzip"; bytes "-d"; bytes "f"]
               (Some (bytes " -9  --best ")) =
    (Some storage, Z.of_nat (List.length (w :: ws)) + 1,
     hd [] [bytes "gzip"; bytes "-d"; bytes "f"] :: w :: ws) /\
    Split (bytes " -9  --best ") (w :: ws) /\
    Forall (fun x => x <> [] /\ Forall (fun b => is_sep b = false) x)
           (w :: ws) /\
    concat (w :: ws) =
      filter (fun b => negb (is_sep b)) (bytes " -9  --best ") /\
    List.length storage = S (List.length (bytes " -9  --best ")).
Proof.
  refine (@add_envopt_takes_words 3 [bytes "gzip"; bytes "-d"; bytes "f"]
            (bytes " -9  --best ") _ _).
  - repeat constructor.
  - apply Exists_cons_tl. apply Exists_cons_hd. reflexivity.
Defined.

Lemma add_envopt_nothing_to_add_witness :
  add_envopt 2 [bytes "gzip"; bytes "f"] None =
    (None, 2, [bytes "gzip"; bytes "f"]) /\
  add_envopt 2 [bytes "gzip"; bytes "f"] (Some (bytes "   ")) =
    (None, 2, [bytes "gzip"; bytes "f"]).
Proof.
  refine (@add_envopt_nothing_to_add 2 [bytes "gzip"; bytes "f"]
            (bytes "   ") _).
  repeat constructor.
Defined.

(** * Short writes, failing reads and the end of the input *)

Section Contracts.
Context {P : Platform}.

(** C3: short-write tolerance of [write_buf], and the place of the
    counter update.  Whatever the writes do, [write_buf] adds the requested
    count to [bytes_out] before it attempts any write: the write loop
    starts from the state that already holds the new total, every outcome
    (return or exit) shows that total, and when the very first write fails
    the process ends with [bytes_out] already grown by the count.  When
    every write succeeds but may take as little as one byte, [write_buf]
    returns normally having delivered exactly the [cnt] bytes at [buf], in
    order, in at most [max 1 cnt] writes, with [bytes_out] grown by [cnt]
    once. *)
Theorem write_buf_short_writes (fuel : nat) (fd : Z) (buf : ptr) (cnt : Z)
    (st : state) :
  test (cfg st) = 0 ->
  0 <= snd buf -> 0 <= cnt < UINT_MOD ->
  write_buf fuel fd buf cnt st =
  write_loop fuel fd buf cnt (set_bytes_out (bytes_out st + cnt) st) /\
  match write_buf fuel fd buf cnt st with
  | Ret _ s' | Exit _ s' => bytes_out s' = bytes_out st + cnt
  | OutOfFuel => True
  end /\
  (forall e,
     w_wr (os st) (w_wcalls (os st)) = SysErr e ->
     cnt <> UINT_MOD - 1 -> (0 < fuel)%nat ->
     exists c s',
       write_buf fuel fd buf cnt st = Exit c s' /\
       bytes_out s' = bytes_out st + cnt /\
       w_wcalls (os s') = S (w_wcalls (os st)) /\
       w_out (os s') = w_out (os st)) /\
  (writer_progress (w_wr (os st)) -> cnt < Z.of_nat fuel ->
   exists k,
     write_buf fuel fd buf cnt st =
     Ret tt (set_os (set_w_written k (w_out (os st) ++ load (mem st) buf cnt)
                       (os st))
               (set_bytes_out (bytes_out st + cnt) st)) /\
     (w_wcalls (os st) < k <= w_wcalls (os st) + Z.to_nat (Z.max 1 cnt))%nat).
Proof.
  intros Ht Hb Hc.
  assert (E : write_buf fuel fd buf cnt st =
              write_loop fuel fd buf cnt (set_bytes_out (bytes_out st + cnt) st)).
  { rewrite write_buf_eq, Ht. reflexivity. }
  split; [exact E|]. rewrite E. split; [|split].
  - pose proof (write_loop_bytes_out fuel fd buf cnt
                  (set_bytes_out (bytes_out st + cnt) st)) as B.
    destruct (write_loop fuel fd buf cnt _) as [[] s'|c s'|]; exact B.
  - intros e Hw Hne Hf. destruct fuel as [|fuel]; [lia|].
    rewrite (@write_loop_fails_first P fuel fd buf cnt e
               (set_bytes_out (bytes_out st + cnt) st) Hw Hne).
    destruct (write_error_frame
                (write_failed e (set_bytes_out (bytes_out st + cnt) st)))
      as (c & s' & Ew & F).
    exists c, s'. split; [exact Ew|].
    destruct F as (_ & _ & _ & _ & _ & Fb & _).
    split; [exact Fb|].
    revert Ew. unfold write_error, bind, get, finish_up_gzip, exit.
    destruct (negb _); intros Ew; inversion Ew; subst; split; reflexivity.
  - intros Hw Hf.
    destruct (write_loop_delivers fuel fd buf (cnt := cnt)
                (set_bytes_out (bytes_out st + cnt) st)) as (k & Ek & Hk);
      try assumption.
    exists k. split; [exact Ek | exact Hk].
Qed.

End Contracts.

(** "abc" through an output that takes one byte per call, and through one
    on which the first write fails. *)
Lemma write_buf_short_writes_witness :
  (test (cfg st_abc) = 0 /\ 0 <= snd (Outbuf, 0) /\ 0 <= 3 < UINT_MOD /\
   writer_progress (w_wr (os st_abc)) /\ 3 < Z.of_nat 4 /\
   exists k,
     write_buf (P := linux) 4 1 (Outbuf, 0) 3 st_abc =
     Ret tt (set_os (set_w_written k (w_out (os st_abc) ++
                                      load (mem st_abc) (Outbuf, 0) 3)
                       (os st_abc))
               (set_bytes_out (bytes_out st_abc + 3) st_abc)) /\
     (w_wcalls (os st_abc) < k <=
      w_wcalls (os st_abc) + Z.to_nat (Z.max 1 3))%nat) /\
  (test (cfg st_wfail) = 0 /\
   w_wr (os st_wfail) (w_wcalls (os st_wfail)) = SysErr 28 /\
   3 <> UINT_MOD - 1 /\ (0 < 4)%nat /\
   exists c s',
     write_buf (P := linux) 4 1 (Outbuf, 0) 3 st_wfail = Exit c s' /\
     bytes_out s' = bytes_out st_wfail + 3 /\
     w_wcalls (os s') = S (w_wcalls (os st_wfail)) /\
     w_out (os s') = w_out (os st_wfail)).
Proof.
  assert (Hb : 0 <= snd (Outbuf, 0)) by (cbn; lia).
  assert (Hc : 0 <= 3 < UINT_MOD) by (unfold UINT_MOD; lia).
  assert (Hn : 3 <> UINT_MOD - 1) by (unfold UINT_MOD; lia).
  assert (Hf : 3 < Z.of_nat 4) by lia.
  assert (Hg : (0 < 4)%nat) by lia.
  split.
  - refine (conj eq_refl (conj Hb (conj Hc (conj one_byte_writer_progress
             (conj Hf _))))).
    exact (proj2 (proj2 (proj2
             (@write_buf_short_writes linux 4 1 (Outbuf, 0) 3 st_abc
                eq_refl Hb Hc))) one_byte_writer_progress Hf).
  - refine (conj eq_refl (conj eq_refl (conj Hn (conj Hg _)))).
    exact (proj1 (proj2 (proj2
             (@write_buf_short_writes linux 4 1 (Outbuf, 0) 3 st_wfail
                eq_refl Hb Hc))) 28 eq_refl Hn Hg).
Defined.


Section RefillContracts.
Context {P : Platform}.

(** Successful partial reads only move the read loop on: from any state
    that the loop reaches, the loop is still running, with enough
    iterations left. *)
Lemma fill_loop_reaches (s t : state) :
  fill_reaches s t ->
  0 < INBUFSIZ <= INT_MAX ->
  0 <= insize s < INBUFSIZ ->
  forall k : nat,
    INBUFSIZ - insize s <= Z.of_nat k ->
    exists k' : nat,
      fill_loop k s = fill_loop k' t /\
      INBUFSIZ - insize t <= Z.of_nat k' /\ 0 <= insize t < INBUFSIZ.
Proof.
  intros R HN. induction R as [s | s s' t St R IH]; intros Hs k Hk.
  - exists k. split; [reflexivity | split; assumption].
  - destruct St as [s s1 len Er H0 H1 Hlt].
    destruct k as [|k]; [lia|].
    assert (Hu : u32 (INBUFSIZ - insize s) = INBUFSIZ - insize s).
    { apply u32_small. unfold UINT_MOD, INT_MAX in *. lia. }
    destruct (read_buffer_spec (ifd (cfg s)) (Inbuf, insize s) s
                (cnt := u32 (INBUFSIZ - insize s)))
      as (len' & s1' & E' & Hl & F); [rewrite Hu; lia|].
    rewrite Er in E'. inversion E'; subst len' s1'. rewrite Hu in Hl.
    assert (Hu2 : u32 (insize s + len) = insize s + len).
    { apply u32_small. unfold UINT_MOD, INT_MAX in *. lia. }
    destruct (IH) with (k := k) as (k' & Ek & Hk' & Ht).
    + cbn [insize set_insize]. rewrite Hu2 in *. lia.
    + cbn [insize set_insize]. rewrite Hu2. lia.
    + exists k'. split; [|split; assumption].
      rewrite fill_loop_step, Er.
      apply Z.eqb_neq in H0, H1. rewrite H0, H1.
      apply Z.ltb_lt in Hlt. rewrite Hlt. exact Ek.
Qed.

(** C4 (as amended): a failing read in the read loop of
    [fill_inbuf] is always fatal.  Let the loop have made any number of
    successful partial reads (none included) and let the next read return
    -1: then [fill_inbuf] ends the process with status [ERROR] and the read
    diagnostic, whatever [eof_ok] is and however many bytes are buffered,
    zero included; it does not return [EOF].  [EOF] is returned only when
    [eof_ok] is set and the first read of the call, made with nothing
    buffered, returns 0; and in that case it is returned. *)
Theorem fill_inbuf_read_failure_fatal (fuel : nat) (eof_ok : Z) (st : state) :
  0 < INBUFSIZ <= INT_MAX ->
  (forall s st1,
     fill_reaches (set_insize 0 st) s ->
     read_buffer (ifd (cfg s)) (Inbuf, insize s) (u32 (INBUFSIZ - insize s)) s
     = Ret (-1) st1 ->
     fill_inbuf fuel eof_ok st =
     Exit ERROR
       (printed (diagnostic (program_name (cfg st1)) (ifname (cfg st1))
                   (if errno st1 =? 0 then "unexpected end of file"
                    else strerror (errno st1))) st1)) /\
  (forall t,
     fill_inbuf fuel eof_ok st = Ret EOF t ->
     eof_ok <> 0 /\
     read_buffer (ifd (cfg st)) (Inbuf, 0) (u32 INBUFSIZ) (set_insize 0 st)
     = Ret 0 t) /\
  (forall t,
     eof_ok <> 0 ->
     read_buffer (ifd (cfg st)) (Inbuf, 0) (u32 INBUFSIZ) (set_insize 0 st)
     = Ret 0 t ->
     fill_inbuf fuel eof_ok st = Ret EOF t).
Proof.
  intros HN.
  assert (H0 : 0 <= insize (set_insize 0 st) < INBUFSIZ)
    by (cbn [insize set_insize]; lia).
  assert (Hk : INBUFSIZ - insize (set_insize 0 st)
               <= Z.of_nat (S (Z.to_nat INBUFSIZ)))
    by (cbn [insize set_insize]; lia).
  assert (Hu : u32 INBUFSIZ = INBUFSIZ).
  { apply u32_small. unfold UINT_MOD, INT_MAX in *. lia. }
  assert (Ec : forall s1 : state,
             read_buffer (ifd (cfg (set_insize 0 st)))
               (Inbuf, insize (set_insize 0 st))
               (u32 (INBUFSIZ - insize (set_insize 0 st))) s1 =
             read_buffer (ifd (cfg st)) (Inbuf, 0) (u32 INBUFSIZ) s1).
  { intros s1. cbn [insize set_insize cfg]. rewrite Z.sub_0_r. reflexivity. }
  split; [|split].
  - intros s st1 R Er.
    destruct (fill_loop_reaches R HN H0 _ Hk) as (k' & Ek & Hk' & Hs).
    rewrite fill_inbuf_eq, Ek.
    destruct k' as [|k']; [lia|].
    rewrite fill_loop_step, Er. cbn [Z.eqb]. rewrite read_error_eq.
    reflexivity.
  - intros t H. rewrite fill_inbuf_eq, fill_loop_step, Ec in H.
    destruct (read_buffer_spec (ifd (cfg st)) (Inbuf, 0) (set_insize 0 st)
                (cnt := u32 INBUFSIZ))
      as (len & s1 & E & Hl & F); [rewrite Hu; lia|].
    rewrite E in *. rewrite Hu in Hl.
    assert (Hi1 : insize s1 = 0) by (destruct F as (_ & Fi & _); exact Fi).
    destruct (len =? 0) eqn:E0.
    + apply Z.eqb_eq in E0. subst len. rewrite Hi1 in H. cbn [Z.eqb] in H.
      destruct (eof_ok =? 0) eqn:Ee; cbn [negb] in H.
      * destruct (flush_window fuel s1) as [[] s2|c s2|]; discriminate.
      * apply Z.eqb_neq in Ee. inversion H; subst t.
        split; [exact Ee | reflexivity].
    + destruct (len =? -1) eqn:E1.
      * rewrite read_error_eq in H. discriminate.
      * apply Z.eqb_neq in E0, E1. exfalso.
        cbn [insize set_insize] in H. rewrite Z.add_0_l in H.
        assert (Hu2 : u32 len = len).
        { apply u32_small. unfold UINT_MOD, INT_MAX in *. lia. }
        rewrite Hu2 in H.
        assert (Hb : forall (s2 : state) (b : byte),
                   Ret (byte_to_Z b) s2 <> Ret EOF t).
        { intros s2 b Hb. inversion Hb as [[Hv Hs]].
          pose proof (byte_to_Z_range b) as Hr. rewrite Hv in Hr.
          unfold EOF in Hr. lia. }
        destruct (len <? INBUFSIZ) eqn:E2.
        -- apply Z.ltb_lt in E2.
           pose proof (@fill_loop_bound P (Z.to_nat INBUFSIZ)
                         (set_insize len s1) HN) as B.
           cbn [insize set_insize] in B. specialize (B ltac:(lia)).
           destruct (fill_loop (Z.to_nat INBUFSIZ) (set_insize len s1))
             as [[] s2|c s2|]; try discriminate.
           destruct B as (Bi & _).
           destruct (insize s2 =? 0) eqn:E3; [apply Z.eqb_eq in E3; lia|].
           exact (Hb _ _ H).
        -- cbn [insize set_insize] in H.
           destruct (len =? 0) eqn:E3; [apply Z.eqb_eq in E3; lia|].
           exact (Hb _ _ H).
  - intros t He Er.
    rewrite fill_inbuf_eq, fill_loop_step, Ec, Er. cbn [Z.eqb].
    destruct (read_buffer_spec (ifd (cfg st)) (Inbuf, 0) (set_insize 0 st)
                (cnt := u32 INBUFSIZ))
      as (len & s1 & E & Hl & F); [rewrite Hu; lia|].
    rewrite Er in E. inversion E; subst len s1.
    destruct F as (_ & Fi & _). rewrite Fi. cbn [insize set_insize Z.eqb].
    apply Z.eqb_neq in He. rewrite He. reflexivity.
Qed.

End RefillContracts.

(** "ab" arrives, then the read fails with EIO: fatal although [eof_ok] is
    set.  On an input already at its end the first read returns 0 and
    [EOF] is returned. *)
Lemma fill_inbuf_read_failure_fatal_witness :
  0 < @INBUFSIZ linux <= INT_MAX /\
  (exists s st1,
     fill_reaches (P := linux) (set_insize 0 st_ab_rderr) s /\
     insize s = 2 /\
     read_buffer (P := linux) (ifd (cfg s)) (Inbuf, insize s)
       (u32 (@INBUFSIZ linux - insize s)) s = Ret (-1) st1 /\
     errno st1 = 5 /\
     fill_inbuf (P := linux) 1 1 st_ab_rderr =
     Exit ERROR
       (printed (diagnostic (program_name (cfg st1)) (ifname (cfg st1))
                   (if errno st1 =? 0 then "unexpected end of file"
                    else @strerror linux (errno st1))) st1)) /\
  (exists t,
     1 <> 0 /\
     read_buffer (P := linux) (ifd (cfg st_banana)) (Inbuf, 0)
       (u32 (@INBUFSIZ linux)) (set_insize 0 st_banana) = Ret 0 t /\
     fill_inbuf (P := linux) 1 1 st_banana = Ret EOF t).
Proof.
  split; [exact linux_INBUFSIZ_ok|]. split.
  - pose (s1 := match read_buffer (P := linux) (ifd (cfg st_ab_rderr))
                          (Inbuf, 0) (u32 (@INBUFSIZ linux))
                          (set_insize 0 st_ab_rderr) with
                  | Ret _ s | Exit _ s => s
                  | OutOfFuel => st_ab_rderr
                  end).
    pose (s := set_insize (u32 (insize (set_insize 0 st_ab_rderr) + 2)) s1).
    pose (st1 := match read_buffer (P := linux) (ifd (cfg s))
                           (Inbuf, insize s)
                           (u32 (@INBUFSIZ linux - insize s)) s with
                   | Ret _ t | Exit _ t => t
                   | OutOfFuel => st_ab_rderr
                   end).
    exists s, st1.
    refine ((fun R Hi Er He =>
               conj R (conj Hi (conj Er (conj He
                 (proj1 (@fill_inbuf_read_failure_fatal linux 1 1 st_ab_rderr
                           linux_INBUFSIZ_ok) s st1 R Er)))))
              _ _ _ _).
    + apply (@fill_reaches_step linux (set_insize 0 st_ab_rderr) s s);
        [|apply fill_reaches_here].
      apply (@fill_step_read linux (set_insize 0 st_ab_rderr) s1 2).
      * vm_compute. reflexivity.
      * discriminate.
      * discriminate.
      * vm_compute. reflexivity.
    + vm_compute. reflexivity.
    + vm_compute. reflexivity.
    + vm_compute. reflexivity.
  - pose (t := match read_buffer (P := linux) (ifd (cfg st_banana))
                         (Inbuf, 0) (u32 (@INBUFSIZ linux))
                         (set_insize 0 st_banana) with
                 | Ret _ s | Exit _ s => s
                 | OutOfFuel => st_banana
                 end).
    exists t.
    refine ((fun Hn Er =>
               conj Hn (conj Er
                 (proj2 (proj2 (@fill_inbuf_read_failure_fatal linux 1 1
                                  st_banana linux_INBUFSIZ_ok)) t Hn Er)))
              _ _).
    + discriminate.
    + vm_compute. reflexivity.
Defined.

Section CopyContracts.
Context {P : Platform}.

Lemma copy_eq (fuel : nat) (in_ out : Z) (st : state) :
  copy fuel in_ out st =
  match copy_loop fuel fuel in_ out (set_errno 0 st) with
  | Ret _ s => Ret OK s
  | Exit c s => Exit c s
  | OutOfFuel => OutOfFuel
  end.
Proof. reflexivity. Qed.

(** Iterations that go on only move the loop of [copy] on. *)
Lemma copy_loop_reaches (fuel : nat) (in_ out : Z) (n : nat) (s t : state) :
  copy_reaches fuel in_ out n s t ->
  forall k : nat,
    copy_loop fuel (n + k) in_ out s = copy_loop fuel k in_ out t.
Proof.
  induction 1 as [s | n s s' t St R IH]; intros k; [reflexivity|].
  destruct St as [s s1 s2 got Hlt Ew Er Hg].
  cbn [Nat.add]. rewrite copy_loop_step.
  apply Z.ltb_lt in Hlt. rewrite Hlt, Ew, Er.
  apply Z.eqb_neq in Hg. rewrite Hg. apply IH.
Qed.

(** C5 (as amended): [copy] does not refill with [fill_inbuf]; it
    reads with [read_buffer] itself.  While the input buffer has unread
    bytes it writes the unread remainder with [write_buf], reads up to
    [INBUFSIZ] bytes at the start of the buffer, adds what it got to
    [bytes_in], makes it the new fill count and resets the cursor to 0.
    After any number of such iterations: if the next read fails, [copy]
    ends the process with the fatal read error; if the next read returns 0
    bytes (end of file), the loop ends and [copy] returns [OK] normally.
    Moreover, when the input delivers [chunks] and then end of file, and
    every write succeeds taking at least one byte, [copy] does return [OK],
    with the unread remainder followed by all the chunks written (only
    counted in test mode) and both counters advanced accordingly. *)
Theorem copy_returns_OK_at_eof (fuel : nat) (in_ out : Z) (st : state) :
  0 < INBUFSIZ <= INT_MAX ->
  (forall n s s1 s2,
     copy_reaches fuel in_ out n (set_errno 0 st) s ->
     inptr s < insize s ->
     write_buf fuel out (Inbuf, inptr s) (u32 (insize s - inptr s)) s =
     Ret tt s1 ->
     read_buffer in_ (Inbuf, 0) INBUFSIZ s1 = Ret (-1) s2 ->
     (n < fuel)%nat ->
     copy fuel in_ out st =
     Exit ERROR
       (printed (diagnostic (program_name (cfg s2)) (ifname (cfg s2))
                   (if errno s2 =? 0 then "unexpected end of file"
                    else strerror (errno s2))) s2)) /\
  (forall n s s1 s2,
     copy_reaches fuel in_ out n (set_errno 0 st) s ->
     inptr s < insize s ->
     write_buf fuel out (Inbuf, inptr s) (u32 (insize s - inptr s)) s =
     Ret tt s1 ->
     read_buffer in_ (Inbuf, 0) INBUFSIZ s1 = Ret 0 s2 ->
     (S n < fuel)%nat ->
     copy fuel in_ out st =
     Ret OK (set_inptr 0 (set_insize 0 (set_bytes_in (bytes_in s2) s2)))) /\
  (forall chunks,
     writer_progress (w_wr (os st)) ->
     w_in (os st) = map RdData chunks ->
     Forall (chunk_ok fuel) chunks ->
     0 <= inptr st < insize st -> insize st < UINT_MOD ->
     insize st - inptr st < Z.of_nat fuel ->
     (List.length chunks + 2 <= fuel)%nat ->
     exists st',
       copy fuel in_ out st = Ret OK st' /\
       bytes_in st' = bytes_in st + total_length chunks /\
       bytes_out st' =
         bytes_out st + (insize st - inptr st) + total_length chunks /\
       insize st' = 0 /\ inptr st' = 0 /\
       w_in (os st') = [] /\
       w_out (os st') =
         w_out (os st) ++
         (if test (cfg st) =? 0
          then load (mem st) (Inbuf, inptr st) (insize st - inptr st) ++
               concat chunks
          else []) /\
       crc st' = crc st /\ errno st' = 0).
Proof.
  intros HN. split; [|split].
  - intros n s s1 s2 R Hlt Ew Er Hn.
    rewrite copy_eq.
    replace fuel with (n + S (fuel - S n))%nat at 2 by lia.
    rewrite (copy_loop_reaches R), copy_loop_step.
    apply Z.ltb_lt in Hlt. rewrite Hlt, Ew, Er. reflexivity.
  - intros n s s1 s2 R Hlt Ew Er Hn.
    rewrite copy_eq.
    replace fuel with (n + S (S (fuel - S (S n))))%nat at 2 by lia.
    rewrite (copy_loop_reaches R), copy_loop_step.
    apply Z.ltb_lt in Hlt. rewrite Hlt, Ew, Er. cbn [Z.eqb].
    rewrite copy_loop_step, u32_0, Z.add_0_r. reflexivity.
  - intros chunks Hw Hin Hok Hp Hs Hf Hk.
    destruct (@copy_loop_chunks P fuel in_ out chunks fuel
                (set_errno 0 st) HN Hw Hin Hok Hp Hs Hf Hk)
      as (st' & E & Hbi & Hbo & Hi & Hpt & Hwi & Hwo & Hcr & He & _).
    exists st'. rewrite copy_eq, E. split; [reflexivity|].
    repeat split; assumption.
Qed.

End CopyContracts.

(** "ab" is unread, the input delivers "cd" and ends: after one iteration
    the read returns 0 and [copy] returns [OK] with "abcd" written.  With
    "a" unread and a read that fails with EIO, [copy] ends the process. *)
Lemma copy_returns_OK_at_eof_witness :
  0 < @INBUFSIZ linux <= INT_MAX /\
  (exists s1 s2,
     copy_reaches (P := linux) 2 0 1 0 (set_errno 0 st_copy_rderr)
       (set_errno 0 st_copy_rderr) /\
     inptr (set_errno 0 st_copy_rderr) < insize (set_errno 0 st_copy_rderr) /\
     write_buf (P := linux) 2 1 (Inbuf, 0) (u32 (1 - 0))
       (set_errno 0 st_copy_rderr) = Ret tt s1 /\
     read_buffer (P := linux) 0 (Inbuf, 0) (@INBUFSIZ linux) s1 = Ret (-1) s2 /\
     (0 < 2)%nat /\
     errno s2 = 5 /\
     copy (P := linux) 2 0 1 st_copy_rderr =
     Exit ERROR
       (printed (diagnostic (program_name (cfg s2)) (ifname (cfg s2))
                   (if errno s2 =? 0 then "unexpected end of file"
                    else @strerror linux (errno s2))) s2)) /\
  (exists s s1 s2,
     copy_reaches (P := linux) 4 0 1 1 (set_errno 0 st_copy) s /\
     inptr s < insize s /\
     write_buf (P := linux) 4 1 (Inbuf, inptr s) (u32 (insize s - inptr s)) s =
     Ret tt s1 /\
     read_buffer (P := linux) 0 (Inbuf, 0) (@INBUFSIZ linux) s1 = Ret 0 s2 /\
     (2 < 4)%nat /\
     w_out (os s2) = bytes "abcd" /\
     copy (P := linux) 4 0 1 st_copy =
     Ret OK (set_inptr 0 (set_insize 0 (set_bytes_in (bytes_in s2) s2)))) /\
  (writer_progress (w_wr (os st_copy)) /\
   w_in (os st_copy) = map RdData [bytes "cd"] /\
   exists st',
     copy (P := linux) 4 0 1 st_copy = Ret OK st' /\
     bytes_in st' = bytes_in st_copy + total_length [bytes "cd"] /\
     bytes_out st' =
       bytes_out st_copy + (insize st_copy - inptr st_copy) +
       total_length [bytes "cd"] /\
     insize st' = 0 /\ inptr st' = 0 /\
     w_in (os st') = [] /\
     w_out (os st') =
       w_out (os st_copy) ++
       (if test (cfg st_copy) =? 0
        then load (mem st_copy) (Inbuf, inptr st_copy)
               (insize st_copy - inptr st_copy) ++ concat [bytes "cd"]
        else []) /\
     crc st' = crc st_copy /\ errno st' = 0).
Proof.
  pose (after := fun (r : result unit) =>
                   match r with
                   | Ret _ s | Exit _ s => s
                   | OutOfFuel => st_copy
                   end).
  pose (after_read := fun (r : result Z) =>
                        match r with
                        | Ret _ s | Exit _ s => s
                        | OutOfFuel => st_copy
                        end).
  split; [exact linux_INBUFSIZ_ok|]. split; [|split].
  - pose (s1 := after (write_buf (P := linux) 2 1 (Inbuf, 0) (u32 (1 - 0))
                         (set_errno 0 st_copy_rderr))).
    pose (s2 := after_read (read_buffer (P := linux) 0 (Inbuf, 0)
                              (@INBUFSIZ linux) s1)).
    exists s1, s2.
    refine ((fun R Hlt Ew Er Hn He =>
               conj R (conj Hlt (conj Ew (conj Er (conj Hn (conj He
                 (proj1 (@copy_returns_OK_at_eof linux 2 0 1 st_copy_rderr
                           linux_INBUFSIZ_ok)
                    0%nat (set_errno 0 st_copy_rderr) s1 s2
                    R Hlt Ew Er Hn)))))))
              _ _ _ _ _ _).
    + apply copy_reaches_here.
    + cbn. lia.
    + vm_compute. reflexivity.
    + vm_compute. reflexivity.
    + lia.
    + vm_compute. reflexivity.
  - pose (a1 := after (write_buf (P := linux) 4 1 (Inbuf, 0) (u32 (2 - 0))
                         (set_errno 0 st_copy))).
    pose (a2 := after_read (read_buffer (P := linux) 0 (Inbuf, 0)
                              (@INBUFSIZ linux) a1)).
    pose (s := set_inptr 0 (set_insize (u32 2)
                              (set_bytes_in (bytes_in a2 + 2) a2))).
    pose (s1 := after (write_buf (P := linux) 4 1 (Inbuf, inptr s)
                         (u32 (insize s - inptr s)) s)).
    pose (s2 := after_read (read_buffer (P := linux) 0 (Inbuf, 0)
                              (@INBUFSIZ linux) s1)).
    exists s, s1, s2.
    refine ((fun R Hlt Ew Er Hn Ho =>
               conj R (conj Hlt (conj Ew (conj Er (conj Hn (conj Ho
                 (proj1 (proj2 (@copy_returns_OK_at_eof linux 4 0 1 st_copy
                                  linux_INBUFSIZ_ok))
                    1%nat s s1 s2 R Hlt Ew Er Hn)))))))
              _ _ _ _ _ _).
    + apply (@copy_reaches_step linux 4 0 1 0 (set_errno 0 st_copy) s s);
        [|apply copy_reaches_here].
      apply (@copy_step_chunk linux 4 0 1 (set_errno 0 st_copy) a1 a2 2).
      * cbn. lia.
      * vm_compute. reflexivity.
      * vm_compute. reflexivity.
      * discriminate.
    + vm_compute. reflexivity.
    + vm_compute. reflexivity.
    + vm_compute. reflexivity.
    + lia.
    + vm_compute. reflexivity.
  - refine ((fun Hw Hin =>
               conj Hw (conj Hin
                 (proj2 (proj2 (@copy_returns_OK_at_eof linux 4 0 1 st_copy
                                  linux_INBUFSIZ_ok))
                    [bytes "cd"] Hw Hin _ _ _ _ _)))
              _ _).
    + apply Forall_cons; [|apply Forall_nil].
      unfold chunk_ok. cbn [INBUFSIZ linux bytes]. cbn.
      split; [discriminate | lia].
    + cbn. lia.
    + cbn. unfold UINT_MOD. lia.
    + cbn. lia.
    + cbn. lia.
    + exact one_byte_writer_progress.
    + reflexivity.
Defined.

Section AfterLoop.
Context {P : Platform}.


End AfterLoop.

